(** * json_builder: a shallow embedding of [json_builder.py]

    The Python module builds a JSON document in place: [JsonBuilder.add]
    parses a JSONPath-like string into components and walks them over the
    caller's object, creating the missing dictionaries and lists.

    Python dictionaries and lists are mutable objects handled by reference,
    so the embedding is a store of objects addressed by locations, and every
    method is a computation over that store which either returns a value or
    raises an exception; the store it leaves behind is visible in both
    cases. *)

From Stdlib Require Import Ascii String ZArith Bool Arith Lia.
From stdpp Require Import base list strings relations.

Local Open Scope string_scope.
Local Open Scope list_scope.

(** ** Values and objects *)

Abbreviation loc := nat.

(** A Python value as the module can meet it.  [VRef] is a reference to a
    [dict] or [list] object of the store; [VNotSet] is an instance of the
    class [NotSet]; [VObject] is any other object, one that [json] cannot
    encode.  Numbers are carried as integers. *)
Inductive val :=
| VNone
| VBool (b : bool)
| VInt (n : Z)
| VStr (s : string)
| VRef (l : loc)
| VNotSet
| VObject (id : nat).

(** A [dict] keeps its items in insertion order; a [list] is a sequence. *)
Inductive obj :=
| ODict (items : list (string * val))
| OList (elems : list val).

Abbreviation heap := (list obj).

(** The two classes that implement [IComponent]. *)
Inductive component :=
| ComponentKey (key : string)
| ComponentIndex (key : nat).

(** ** Exceptions *)

(** The text of an exception, kept structured: one constructor per [raise]
    of the module and per failing primitive. *)
Inductive message :=
| MsgNotDict (key : string)
| MsgNotList (key : nat)
| MsgIndexTooBig (key : nat)
| MsgNotSerializable (root : val)
| MsgInvalidPath (json_path : string)
| MsgContext (error : message) (root : val) (json_path : string)
| MsgNotEncodable
| MsgCircular
| MsgDepth
| MsgNoItem
| MsgOutOfRange
| MsgNoAttribute.

Inductive exn :=
| TypeError (m : message)
| ValueError (m : message)
| IndexError (m : message)
| KeyError (m : message)
| AttributeError (m : message)
| RecursionError (m : message).

Inductive result (A : Type) :=
| Ok (a : A)
| Raise (e : exn).
Arguments Ok {A} a.
Arguments Raise {A} e.

(** ** Computations over the store *)

Definition M (A : Type) : Type := heap -> result A * heap.

Definition ret {A} (a : A) : M A := fun h => (Ok a, h).

Definition raise {A} (e : exn) : M A := fun h => (Raise e, h).

Definition bind {A B} (m : M A) (k : A -> M B) : M B :=
  fun h =>
    match m h with
    | (Ok a, h') => k a h'
    | (Raise e, h') => (Raise e, h')
    end.

Declare Scope py_scope.
Delimit Scope py_scope with py.
Notation "x <- c1 ;; c2" := (bind c1 (fun x => c2))
  (at level 100, c1 at next level, right associativity) : py_scope.
Notation "c1 ;; c2" := (bind c1 (fun _ => c2))
  (at level 100, right associativity) : py_scope.
Local Open Scope py_scope.

(** [try: m except TypeError as error: handler error] *)
Definition try_except_TypeError {A} (m : M A) (handler : message -> M A) : M A :=
  fun h =>
    match m h with
    | (Raise (TypeError error), h') => handler error h'
    | r => r
    end.

(** ** Primitive operations on dictionaries and lists *)

Fixpoint dict_get (k : string) (items : list (string * val)) : option val :=
  match items with
  | [] => None
  | (k', v) :: items' => if String.eqb k' k then Some v else dict_get k items'
  end.

(** [d[k] = v]: the value of an existing key is replaced where it stands,
    a new key goes to the end. *)
Fixpoint dict_set (k : string) (v : val) (items : list (string * val))
  : list (string * val) :=
  match items with
  | [] => [(k, v)]
  | (k', v') :: items' =>
      if String.eqb k' k then (k, v) :: items'
      else (k', v') :: dict_set k v items'
  end.

(** [isinstance(o, dict)] *)
Definition isinstance_dict (o : val) : M bool :=
  fun h =>
    match o with
    | VRef l => match h !! l with
                | Some (ODict _) => (Ok true, h)
                | _ => (Ok false, h)
                end
    | _ => (Ok false, h)
    end.

(** [isinstance(o, list)] *)
Definition isinstance_list (o : val) : M bool :=
  fun h =>
    match o with
    | VRef l => match h !! l with
                | Some (OList _) => (Ok true, h)
                | _ => (Ok false, h)
                end
    | _ => (Ok false, h)
    end.

(** [isinstance(value, NotSet)] *)
Definition isinstance_NotSet (value : val) : bool :=
  match value with
  | VNotSet => true
  | _ => false
  end.

Definition isinstance_ComponentIndex (c : option component) : bool :=
  match c with
  | Some (ComponentIndex _) => true
  | _ => false
  end.

Definition isinstance_ComponentKey (c : option component) : bool :=
  match c with
  | Some (ComponentKey _) => true
  | _ => false
  end.

(** The literals [{}] and [[]] make a new object. *)
Definition new_dict : M val :=
  fun h => (Ok (VRef (length h)), h ++ [ODict []]).

Definition new_list : M val :=
  fun h => (Ok (VRef (length h)), h ++ [OList []]).

(** [key in d] *)
Definition dict_contains (d : val) (key : string) : M bool :=
  fun h =>
    match d with
    | VRef l => match h !! l with
                | Some (ODict items) =>
                    (Ok (match dict_get key items with Some _ => true | None => false end), h)
                | _ => (Raise (TypeError MsgNoItem), h)
                end
    | _ => (Raise (TypeError MsgNoItem), h)
    end.

(** [d[key] = value] *)
Definition dict_setitem (d : val) (key : string) (value : val) : M unit :=
  fun h =>
    match d with
    | VRef l => match h !! l with
                | Some (ODict items) =>
                    (Ok tt, <[l := ODict (dict_set key value items)]> h)
                | _ => (Raise (TypeError MsgNoItem), h)
                end
    | _ => (Raise (TypeError MsgNoItem), h)
    end.

(** [d[key]] *)
Definition dict_getitem (d : val) (key : string) : M val :=
  fun h =>
    match d with
    | VRef l => match h !! l with
                | Some (ODict items) =>
                    match dict_get key items with
                    | Some v => (Ok v, h)
                    | None => (Raise (KeyError MsgNoItem), h)
                    end
                | _ => (Raise (TypeError MsgNoItem), h)
                end
    | _ => (Raise (TypeError MsgNoItem), h)
    end.

(** [len(xs)] *)
Definition list_len (xs : val) : M nat :=
  fun h =>
    match xs with
    | VRef l => match h !! l with
                | Some (OList elems) => (Ok (length elems), h)
                | _ => (Raise (TypeError MsgNoItem), h)
                end
    | _ => (Raise (TypeError MsgNoItem), h)
    end.

(** [xs.append(x)] *)
Definition list_append (xs : val) (x : val) : M unit :=
  fun h =>
    match xs with
    | VRef l => match h !! l with
                | Some (OList elems) => (Ok tt, <[l := OList (elems ++ [x])]> h)
                | _ => (Raise (AttributeError MsgNoAttribute), h)
                end
    | _ => (Raise (AttributeError MsgNoAttribute), h)
    end.

(** [xs[i] = x], an [IndexError] out of range. *)
Definition list_setitem (xs : val) (i : nat) (x : val) : M unit :=
  fun h =>
    match xs with
    | VRef l => match h !! l with
                | Some (OList elems) =>
                    if (i <? length elems)%nat
                    then (Ok tt, <[l := OList (<[i := x]> elems)]> h)
                    else (Raise (IndexError MsgOutOfRange), h)
                | _ => (Raise (TypeError MsgNoItem), h)
                end
    | _ => (Raise (TypeError MsgNoItem), h)
    end.

(** [xs[i]], an [IndexError] out of range. *)
Definition list_getitem (xs : val) (i : nat) : M val :=
  fun h =>
    match xs with
    | VRef l => match h !! l with
                | Some (OList elems) =>
                    match elems !! i with
                    | Some v => (Ok v, h)
                    | None => (Raise (IndexError MsgOutOfRange), h)
                    end
                | _ => (Raise (TypeError MsgNoItem), h)
                end
    | _ => (Raise (TypeError MsgNoItem), h)
    end.

(** [if b: m] with no [else]. *)
Definition when (b : bool) (m : M unit) : M unit :=
  if b then m else ret tt.

(** ** The path components *)

Module ComponentKey.

(** [ComponentKey.add(self, root, component_next, value)] *)
Definition add (key : string) (root : val) (component_next : option component)
    (value : val) : M val :=
  is_dict <- isinstance_dict root ;;
  if negb is_dict then raise (TypeError (MsgNotDict key))
  else if String.eqb key "$" then ret root
  else if negb (isinstance_NotSet value) then
    (dict_setitem root key value ;;
     ret root)
  else
    (present <- dict_contains root key ;;
     when (negb present)
       (if isinstance_ComponentIndex component_next
        then (o <- new_list ;; dict_setitem root key o)
        else (o <- new_dict ;; dict_setitem root key o)) ;;
     dict_getitem root key).

End ComponentKey.

Module ComponentIndex.

(** [ComponentIndex.add(self, root, component_next, value)] *)
Definition add (key : nat) (root : val) (component_next : option component)
    (value : val) : M val :=
  is_list <- isinstance_list root ;;
  if negb is_list then raise (TypeError (MsgNotList key))
  else
    (n <- list_len root ;;
     if (n <? key)%nat then raise (IndexError (MsgIndexTooBig key))
     else
       (n' <- list_len root ;;
        when (n' =? key)%nat (list_append root VNotSet) ;;
        (if negb (isinstance_NotSet value) then list_setitem root key value
         else if isinstance_ComponentKey component_next
              then (o <- new_dict ;; list_append root o)
              else (o <- new_list ;; list_append root o)) ;;
        list_getitem root key)).

End ComponentIndex.

(** [component.add(...)], dispatched on the class of the component. *)
Definition component_add (c : component) : val -> option component -> val -> M val :=
  match c with
  | ComponentKey key => ComponentKey.add key
  | ComponentIndex key => ComponentIndex.add key
  end.

(** ** Regular expressions, as far as the module uses [re] *)

Module re.

(** A set of characters: an escaped character, a range of a bracket
    expression, the dot, and the union that a bracket expression makes. *)
Inductive charset :=
| Chr (c : ascii)
| Range (lo hi : ascii)
| AnyChar
| Union (a b : charset).

Fixpoint in_charset (cs : charset) (c : ascii) : bool :=
  match cs with
  | Chr c' => Ascii.eqb c c'
  | Range lo hi =>
      (N_of_ascii lo <=? N_of_ascii c)%N && (N_of_ascii c <=? N_of_ascii hi)%N
  | AnyChar => negb (Ascii.eqb c "010"%char)
  | Union a b => in_charset a c || in_charset b c
  end.

Inductive regex :=
| Void
| Eps
| Sym (cs : charset)
| Cat (r1 r2 : regex)
| Alt (r1 r2 : regex)
| Star (r : regex).

(** [r+] *)
Definition Plus (r : regex) : regex := Cat r (Star r).

(** The words of a regular expression. *)
Inductive matches : regex -> string -> Prop :=
| MEps : matches Eps ""
| MSym cs c : in_charset cs c = true -> matches (Sym cs) (String c "")
| MCat r1 r2 s1 s2 :
    matches r1 s1 -> matches r2 s2 -> matches (Cat r1 r2) (s1 +:+ s2)
| MAltL r1 r2 s : matches r1 s -> matches (Alt r1 r2) s
| MAltR r1 r2 s : matches r2 s -> matches (Alt r1 r2) s
| MStar0 r : matches (Star r) ""
| MStarS r s1 s2 :
    matches r s1 -> matches (Star r) s2 -> matches (Star r) (s1 +:+ s2).

Fixpoint nullable (r : regex) : bool :=
  match r with
  | Void => false
  | Eps => true
  | Sym _ => false
  | Cat r1 r2 => nullable r1 && nullable r2
  | Alt r1 r2 => nullable r1 || nullable r2
  | Star _ => true
  end.

Fixpoint deriv (c : ascii) (r : regex) : regex :=
  match r with
  | Void => Void
  | Eps => Void
  | Sym cs => if in_charset cs c then Eps else Void
  | Cat r1 r2 =>
      if nullable r1 then Alt (Cat (deriv c r1) r2) (deriv c r2)
      else Cat (deriv c r1) r2
  | Alt r1 r2 => Alt (deriv c r1) (deriv c r2)
  | Star r1 => Cat (deriv c r1) (Star r1)
  end.

(** [re.fullmatch(r, s)] as a truth value: the whole of [s] is a word of
    [r]. *)
Fixpoint fullmatch (r : regex) (s : string) : bool :=
  match s with
  | "" => nullable r
  | String c s' => fullmatch (deriv c r) s'
  end.

(** The longest prefix of [s] made of characters of [cs], and the rest:
    what a greedy [[cs]+] at the head of a pattern takes when the next
    thing in the pattern is a character outside [cs]. *)
Fixpoint greedy_prefix (cs : charset) (s : string) : string * string :=
  match s with
  | "" => ("", "")
  | String c s' =>
      if in_charset cs c
      then let (p, rest) := greedy_prefix cs s' in (String c p, rest)
      else ("", s)
  end.

(** [\d] on the characters of a path. *)
Definition digit : charset := Range "0" "9".

Definition flush (run : string) : list string :=
  match run with
  | "" => []
  | _ => [run]
  end.

(** [re.findall] for the pattern of one or more digits, with [run] the
    digits read since the last character that is not one: the maximal runs
    of digits of [s], from left to right. *)
Fixpoint findall_digits_from (s : string) (run : string) : list string :=
  match s with
  | "" => flush run
  | String c s' =>
      if in_charset digit c
      then findall_digits_from s' (run +:+ String c "")
      else flush run ++ findall_digits_from s' ""
  end.

Definition findall_digits (s : string) : list string :=
  findall_digits_from s "".

End re.

(** ** Strings and integers *)

(** [s.split(sep)] for a separator of one character, with [cur] the piece
    being read. *)
Fixpoint split_from (sep : ascii) (s : string) (cur : string) : list string :=
  match s with
  | "" => [cur]
  | String c s' =>
      if Ascii.eqb c sep then cur :: split_from sep s' ""
      else split_from sep s' (cur +:+ String c "")
  end.

Definition split (sep : ascii) (s : string) : list string :=
  split_from sep s "".

Definition digit_value (c : ascii) : nat :=
  N.to_nat (N_of_ascii c) - 48.

Fixpoint int_from (s : string) (acc : nat) : nat :=
  match s with
  | "" => acc
  | String c s' => int_from s' (10 * acc + digit_value c)
  end.

(** [int(s)] on a string of decimal digits. *)
Definition int (s : string) : nat := int_from s 0.

(** ** The [json] encoder, as far as its exceptions go *)

Module json.

Definition on_stack (l : loc) (markers : list loc) : bool :=
  existsb (Nat.eqb l) markers.

(** The walk of [json.dumps] over a value: scalars are encoded, a [dict]
    or a [list] is entered unless it is already being encoded further up
    ([markers], the circular reference check), and any other object is a
    [TypeError].  The text it would produce is not kept: the module drops
    it. *)
Fixpoint encode (fuel : nat) (h : heap) (markers : list loc) (o : val)
  : result unit :=
  match o with
  | VNone | VBool _ | VInt _ | VStr _ => Ok tt
  | VNotSet | VObject _ => Raise (TypeError MsgNotEncodable)
  | VRef l =>
      if on_stack l markers then Raise (ValueError MsgCircular)
      else
        match fuel with
        | 0 => Raise (RecursionError MsgDepth)
        | S fuel' =>
            let encode_all :=
              fix encode_all (os : list val) : result unit :=
                match os with
                | [] => Ok tt
                | o' :: os' =>
                    match encode fuel' h (l :: markers) o' with
                    | Ok _ => encode_all os'
                    | Raise e => Raise e
                    end
                end in
            match h !! l with
            | Some (ODict items) => encode_all (map snd items)
            | Some (OList elems) => encode_all elems
            | None => Raise (TypeError MsgNotEncodable)
            end
        end
  end.

(** [json.dumps(o)].  A chain of nested containers that does not come back
    on itself is at most as long as the store, so the depth given is
    never used up. *)
Definition dumps (o : val) : M unit :=
  fun h => (encode (S (length h)) h [] o, h).

End json.

(** ** The builder *)

Module JsonBuilder.

(** [JsonBuilder.__check_json] *)
Definition check_json (root : val) : M unit :=
  try_except_TypeError (json.dumps root)
    (fun _ => raise (TypeError (MsgNotSerializable root))).

(** The bracket expression a-z, A-Z, 0-9. *)
Definition alnum : re.charset :=
  re.Union (re.Range "a" "z") (re.Union (re.Range "A" "Z") (re.Range "0" "9")).

(** A dot and one or more characters of [alnum]. *)
Definition key_group : re.regex :=
  re.Cat (re.Sym (re.Chr ".")) (re.Plus (re.Sym alnum)).

(** One or more digits between brackets. *)
Definition index_group : re.regex :=
  re.Cat (re.Sym (re.Chr "["))
    (re.Cat (re.Plus (re.Sym (re.Range "0" "9"))) (re.Sym (re.Chr "]"))).

(** The pattern of [__check_path]: a dollar, then any number of times any
    number of key groups followed by any number of runs of one or more
    index groups.  It is used with [re.fullmatch], where the leading
    caret adds nothing. *)
Definition json_path_regex : re.regex :=
  re.Cat (re.Sym (re.Chr "$"))
    (re.Star (re.Cat (re.Star key_group) (re.Star (re.Plus index_group)))).

(** [JsonBuilder.__check_path] *)
Definition check_path (json_path : string) : M unit :=
  if negb (re.fullmatch json_path_regex json_path)
  then raise (ValueError (MsgInvalidPath json_path))
  else ret tt.

(** The bracket expression 0-9, a-x, A-X and the dollar. *)
Definition item_key_chars : re.charset :=
  re.Union (re.Range "0" "9")
    (re.Union (re.Range "a" "x") (re.Union (re.Range "A" "X") (re.Chr "$"))).

(** The pattern that [__get_path_components] tries on an item: one or more
    characters of [item_key_chars], an opening bracket, any characters but
    newlines, a closing bracket.  With [re.fullmatch] the closing dollar
    adds nothing. *)
Definition item_regex : re.regex :=
  re.Cat (re.Plus (re.Sym item_key_chars))
    (re.Cat (re.Sym (re.Chr "["))
       (re.Cat (re.Star (re.Sym re.AnyChar)) (re.Sym (re.Chr "]")))).

(** The body of the loop of [__get_path_components]: the components that
    one item of the split path adds to [component_list].  On an item that
    [item_regex] matches, [re.match] with the same pattern in two groups
    gives the key as its first group: the longest head of the item in
    [item_key_chars], the only one that a bracket follows
    ([greedy_prefix_item] below).  The indices are the runs of digits of
    the whole item. *)
Definition item_components (item : string) : list component :=
  if re.fullmatch item_regex item then
    let key := fst (re.greedy_prefix item_key_chars item) in
    ComponentKey key
      :: map (fun value => ComponentIndex (int value)) (re.findall_digits item)
  else [ComponentKey item].

(** [JsonBuilder.__get_path_components] *)
Definition get_path_components (json_path : string) : list component :=
  flat_map item_components (split "." json_path).

(** The loop of [add]: [component_list] is what is left to walk, its head
    the current component and the one after it the next one. *)
Fixpoint walk (root : val) (json_path : string) (value : val)
    (component_list : list component) (child : val) : M unit :=
  match component_list with
  | [] => ret tt
  | component_current :: rest =>
      let component_next := head rest in
      let component_value :=
        match component_next with
        | Some _ => VNotSet
        | None => value
        end in
      child' <- try_except_TypeError
                  (component_add component_current child component_next
                     component_value)
                  (fun error =>
                     raise (TypeError (MsgContext error root json_path))) ;;
      walk root json_path value rest child'
  end.

(** [JsonBuilder.add] *)
Definition add (root : val) (json_path : string) (value : val) : M val :=
  check_json root ;;
  check_path json_path ;;
  check_json value ;;
  walk root json_path value (get_path_components json_path) root ;;
  ret root.

End JsonBuilder.


(** ** Notions used to state the properties *)

(** The grammar of paths as the specification writes it: a dollar, then any
    number of times any number of key groups (a dot and one or more of A-Z,
    a-z, 0-9) followed by any number of index groups (one or more digits
    between brackets). *)
Definition spec_alnum : re.charset :=
  re.Union (re.Range "A" "Z") (re.Union (re.Range "a" "z") (re.Range "0" "9")).

Definition spec_key_group : re.regex :=
  re.Cat (re.Sym (re.Chr ".")) (re.Plus (re.Sym spec_alnum)).

Definition spec_index_group : re.regex :=
  re.Cat (re.Sym (re.Chr "["))
    (re.Cat (re.Plus (re.Sym (re.Range "0" "9"))) (re.Sym (re.Chr "]"))).

Definition spec_grammar : re.regex :=
  re.Cat (re.Sym (re.Chr "$"))
    (re.Star (re.Cat (re.Star spec_key_group) (re.Star spec_index_group))).

(** Two regular expressions with the same words. *)
Definition same_words (r1 r2 : re.regex) : Prop :=
  forall s, re.matches r1 s <-> re.matches r2 s.

(** [o] is a [dict], or a [list], of the store. *)
Definition is_dict (h : heap) (o : val) : Prop :=
  exists l items, o = VRef l /\ h !! l = Some (ODict items).

Definition is_list (h : heap) (o : val) : Prop :=
  exists l elems, o = VRef l /\ h !! l = Some (OList elems).

(** [json.dumps(o)] returns: [o] is JSON-serializable. *)
Definition serializable (h : heap) (o : val) : Prop :=
  json.dumps o h = (Ok tt, h).

(** [json.dumps(o)] raises the [TypeError] of an object it cannot encode. *)
Definition not_serializable (h : heap) (o : val) : Prop :=
  exists m, json.dumps o h = (Raise (TypeError m), h).

(** [v] is an item of the container [o]. *)
Inductive child_of (h : heap) : val -> val -> Prop :=
| child_of_dict l items k v :
    h !! l = Some (ODict items) -> (k, v) ∈ items -> child_of h (VRef l) v
| child_of_list l elems v :
    h !! l = Some (OList elems) -> v ∈ elems -> child_of h (VRef l) v.

(** [v] is [o] or sits somewhere inside it. *)
Definition reachable (h : heap) : val -> val -> Prop := rtc (child_of h).

(** The expression [o[k1][k2]...[kn]] for a list of keys. *)
Fixpoint get_path (h : heap) (o : val) (keys : list string) : option val :=
  match keys with
  | [] => Some o
  | k :: keys' =>
      match o with
      | VRef l =>
          match h !! l with
          | Some (ODict items) =>
              match dict_get k items with
              | Some v => get_path h v keys'
              | None => None
              end
          | _ => None
          end
      | _ => None
      end
  end.

(** The characters of a string all belong to a set. *)
Fixpoint all_in (cs : re.charset) (s : string) : bool :=
  match s with
  | "" => true
  | String c s' => re.in_charset cs c && all_in cs s'
  end.

(** A key that the grammar allows: one or more letters or digits. *)
Definition valid_key (k : string) : Prop :=
  k <> "" /\ all_in JsonBuilder.alnum k = true.

(** The text after the dollar of a path made of keys only. *)
Fixpoint dotted (keys : list string) : string :=
  match keys with
  | [] => ""
  | k :: keys' => String "." k +:+ dotted keys'
  end.

(** The path [$.k1.k2...kn]. *)
Definition key_path (keys : list string) : string :=
  String "$" (dotted keys).

(** A character occurs in a string. *)
Fixpoint occurs (c : ascii) (s : string) : bool :=
  match s with
  | "" => false
  | String c' s' => Ascii.eqb c' c || occurs c s'
  end.

(** The object that a component makes for the one after it. *)
Definition container_for_key (next : option component) : obj :=
  if isinstance_ComponentIndex next then OList [] else ODict [].

Definition container_for_index (next : option component) : obj :=
  if isinstance_ComponentKey next then ODict [] else OList [].

(** A computation that never raises a [ValueError]. *)
Definition no_ValueError {A} (m : M A) : Prop :=
  forall h msg h', m h <> (Raise (ValueError msg), h').

(** The value that [add] hands to a component: the real one for the last
    component only. *)
Definition component_value (rest : list component) (value : val) : val :=
  match head rest with
  | Some _ => VNotSet
  | None => value
  end.

(** The characters of an index group: the two brackets and the digits. *)
Definition index_chars : re.charset :=
  re.Union (re.Chr "[") (re.Union (re.Chr "]") (re.Range "0" "9")).

(** An object after a call, against what it was before: a dictionary is
    still a dictionary and has the keys it had, a list is still a list and
    is no shorter. *)
Definition obj_grows (o o' : obj) : Prop :=
  match o, o' with
  | ODict items, ODict items' =>
      forall k, is_Some (dict_get k items) -> is_Some (dict_get k items')
  | OList elems, OList elems' => length elems <= length elems'
  | _, _ => False
  end.

(** Every object of the store is still there and has only grown. *)
Definition store_grows (h h' : heap) : Prop :=
  forall l o, h !! l = Some o -> exists o', h' !! l = Some o' /\ obj_grows o o'.

(** A computation under which the store only grows, whether it returns or
    raises. *)
Definition grows_only {A} (m : M A) : Prop :=
  forall h r h', m h = (r, h') -> store_grows h h'.


(** The exceptions of one component, before [add] puts its context around
    the [TypeError]s. *)
Inductive component_exception : component -> exn -> Prop :=
| cexn_not_dict key :
    component_exception (ComponentKey key) (TypeError (MsgNotDict key))
| cexn_not_list key :
    component_exception (ComponentIndex key) (TypeError (MsgNotList key))
| cexn_index_too_big key :
    component_exception (ComponentIndex key) (IndexError (MsgIndexTooBig key)).

(** The index groups [[d1][d2]...] for a list of digit strings. *)
Fixpoint brackets (ds : list string) : string :=
  match ds with
  | [] => ""
  | d :: ds' => String "[" (d +:+ String "]" (brackets ds'))
  end.

(** A string of one or more digits. *)
Definition digits (d : string) : Prop :=
  d <> "" /\ all_in re.digit d = true.

(** The letters that the pattern of [__get_path_components] takes in a
    name: a to x, in both cases. *)
Definition letters_a_x : re.charset :=
  re.Union (re.Range "a" "x") (re.Range "A" "X").

(** A dollar followed by key groups and index groups in any order. *)
Definition any_groups : re.regex :=
  re.Cat (re.Sym (re.Chr "$"))
    (re.Star (re.Alt JsonBuilder.key_group JsonBuilder.index_group)).

(** The path [$.name[d1][d2]...]. *)
Definition indexed_path (name : string) (ds : list string) : string :=
  String "$" (String "." (name +:+ brackets ds)).

(** * Properties *)

(** ** The matcher decides the words of a regular expression *)

Section Matcher.

Import re.

Lemma append_nil_l (s : string) : "" +:+ s = s.
Proof. reflexivity. Qed.

Lemma append_cons (c : ascii) (s1 s2 : string) :
  String c s1 +:+ s2 = String c (s1 +:+ s2).
Proof. reflexivity. Qed.

Lemma append_empty_r (s : string) : s +:+ "" = s.
Proof.
  induction s as [|c s IH]; [reflexivity |].
  rewrite append_cons, IH. reflexivity.
Qed.

Lemma append_assoc (s1 s2 s3 : string) : (s1 +:+ s2) +:+ s3 = s1 +:+ (s2 +:+ s3).
Proof.
  induction s1 as [|c s1 IH]; [reflexivity |].
  rewrite !append_cons, IH. reflexivity.
Qed.

Lemma append_is_empty (s1 s2 : string) : s1 +:+ s2 = "" -> s1 = "" /\ s2 = "".
Proof. destruct s1; [rewrite append_nil_l; auto | rewrite append_cons; discriminate]. Qed.

Lemma nullable_matches (r : regex) : nullable r = true <-> matches r "".
Proof.
  split.
  - induction r; simpl; intros Hn; try discriminate.
    + constructor.
    + apply andb_true_iff in Hn as [H1 H2].
      change "" with ("" +:+ ""). constructor; auto.
    + apply orb_true_iff in Hn as [H1 | H2];
        [apply MAltL | apply MAltR]; auto.
    + constructor.
  - intros Hm. remember "" as s eqn:Hs.
    induction Hm; simpl; subst; try discriminate; auto.
    + apply append_is_empty in Hs as [-> ->].
      rewrite IHHm1, IHHm2; auto.
    + rewrite IHHm; auto.
    + rewrite IHHm; auto using orb_true_r.
Qed.

Lemma matches_deriv (c : ascii) (r : regex) (s : string) :
  matches r (String c s) -> matches (deriv c r) s.
Proof.
  intros Hm. remember (String c s) as s0 eqn:Hs.
  revert c s Hs.
  induction Hm; intros c0 s0 Hs; simpl; try discriminate.
  - injection Hs as -> <-. rewrite H. constructor.
  - destruct s1 as [|c1 s1];
      [rewrite append_nil_l in Hs | rewrite append_cons in Hs].
    + subst s2. apply nullable_matches in Hm1. rewrite Hm1.
      apply MAltR. eauto.
    + injection Hs as -> <-.
      assert (Hc : matches (Cat (deriv c0 r1) r2) (s1 +:+ s2))
        by (constructor; eauto).
      destruct (nullable r1); [apply MAltL |]; exact Hc.
  - apply MAltL. eauto.
  - apply MAltR. eauto.
  - destruct s1 as [|c1 s1];
      [rewrite append_nil_l in Hs | rewrite append_cons in Hs].
    + eapply IHHm2 in Hs. exact Hs.
    + injection Hs as -> <-. constructor; eauto.
Qed.

Lemma deriv_matches (c : ascii) (r : regex) (s : string) :
  matches (deriv c r) s -> matches r (String c s).
Proof.
  revert s. induction r; simpl; intros s Hm.
  - inversion Hm.
  - inversion Hm.
  - destruct (in_charset cs c) eqn:Hc; inversion Hm; subst.
    constructor. exact Hc.
  - destruct (nullable r1) eqn:Hn.
    + inversion Hm as [| | |? ? ? Hl|? ? ? Hr| |]; subst.
      * inversion Hl; subst.
        change (String c (s1 +:+ s2)) with (String c s1 +:+ s2).
        constructor; auto.
      * change (String c s) with ("" +:+ String c s).
        constructor; [apply nullable_matches; exact Hn | auto].
    + inversion Hm; subst.
      change (String c (s1 +:+ s2)) with (String c s1 +:+ s2).
      constructor; auto.
  - inversion Hm; subst; [apply MAltL | apply MAltR]; auto.
  - inversion Hm; subst.
    change (String c (s1 +:+ s2)) with (String c s1 +:+ s2).
    constructor; auto.
Qed.

Lemma fullmatch_matches (r : regex) (s : string) :
  fullmatch r s = true <-> matches r s.
Proof.
  revert r. induction s as [|c s IH]; intros r; simpl.
  - apply nullable_matches.
  - rewrite IH. split; [apply deriv_matches | apply matches_deriv].
Qed.

Lemma fullmatch_false (r : regex) (s : string) :
  fullmatch r s = false <-> ~ matches r s.
Proof.
  rewrite <- fullmatch_matches. destruct (fullmatch r s); split; intros H;
    try reflexivity; try discriminate; try (intros ?; discriminate).
  exfalso; apply H; reflexivity.
Qed.

End Matcher.

(** ** The pattern of the code and the grammar of the specification *)

Section Grammar.

Import re.

Lemma same_words_refl (r : regex) : same_words r r.
Proof. intros s. reflexivity. Qed.

Lemma same_words_trans (r1 r2 r3 : regex) :
  same_words r1 r2 -> same_words r2 r3 -> same_words r1 r3.
Proof. intros H12 H23 s. rewrite (H12 s). apply H23. Qed.

Lemma same_words_Sym (cs1 cs2 : charset) :
  (forall c, in_charset cs1 c = in_charset cs2 c) ->
  same_words (Sym cs1) (Sym cs2).
Proof.
  intros Hcs s. split; intros Hm; inversion Hm; subst; constructor;
    [rewrite <- Hcs | rewrite Hcs]; assumption.
Qed.

Lemma same_words_Cat (r1 r1' r2 r2' : regex) :
  same_words r1 r1' -> same_words r2 r2' ->
  same_words (Cat r1 r2) (Cat r1' r2').
Proof.
  intros H1 H2 s. split; intros Hm; inversion Hm; subst; constructor;
    try (apply H1; assumption); apply H2; assumption.
Qed.

Lemma matches_Star_incl (r r' : regex) (s : string) :
  (forall t, matches r t -> matches r' t) ->
  matches (Star r) s -> matches (Star r') s.
Proof.
  intros Hincl Hm. remember (Star r) as r0 eqn:Hr0.
  induction Hm; try discriminate; injection Hr0 as ->.
  - constructor.
  - constructor; auto.
Qed.

Lemma same_words_Star (r r' : regex) :
  same_words r r' -> same_words (Star r) (Star r').
Proof.
  intros H s. split; apply matches_Star_incl; intros t; apply H.
Qed.

Lemma same_words_Plus (r r' : regex) :
  same_words r r' -> same_words (Plus r) (Plus r').
Proof.
  intros H. apply same_words_Cat; [exact H | apply same_words_Star; exact H].
Qed.

Lemma matches_Star_app (r : regex) (s1 s2 : string) :
  matches (Star r) s1 -> matches (Star r) s2 -> matches (Star r) (s1 +:+ s2).
Proof.
  intros Hm1 Hm2. remember (Star r) as r0 eqn:Hr0.
  induction Hm1; try discriminate; injection Hr0 as ->.
  - exact Hm2.
  - rewrite append_assoc. constructor; auto.
Qed.

Lemma matches_Star_one (r : regex) (s : string) :
  matches r s -> matches (Star r) s.
Proof.
  intros Hm. rewrite <- (append_empty_r s). constructor; [exact Hm | constructor].
Qed.

Lemma matches_Plus_one (r : regex) (s : string) :
  matches r s -> matches (Plus r) s.
Proof.
  intros Hm. rewrite <- (append_empty_r s). constructor; [exact Hm | constructor].
Qed.

(** A starred [r+] has the words of a starred [r]. *)
Lemma same_words_Star_Plus (r : regex) : same_words (Star (Plus r)) (Star r).
Proof.
  intros s. split; intros Hm.
  - remember (Star (Plus r)) as r0 eqn:Hr0.
    induction Hm; try discriminate; injection Hr0 as ->.
    + constructor.
    + inversion Hm1; subst.
      rewrite append_assoc. constructor; [assumption |].
      apply matches_Star_app; auto.
  - revert Hm. apply matches_Star_incl. apply matches_Plus_one.
Qed.

Lemma alnum_spec_alnum (c : ascii) :
  in_charset JsonBuilder.alnum c = in_charset spec_alnum c.
Proof.
  unfold JsonBuilder.alnum, spec_alnum. cbn [in_charset].
  destruct (_ && _), (_ && _), (_ && _); reflexivity.
Qed.

(** The pattern of [__check_path] and the grammar of the specification have
    the same words. *)
Lemma json_path_regex_spec_grammar :
  same_words JsonBuilder.json_path_regex spec_grammar.
Proof.
  unfold JsonBuilder.json_path_regex, spec_grammar.
  apply same_words_Cat; [apply same_words_refl |].
  apply same_words_Star. apply same_words_Cat.
  - apply same_words_Star. unfold JsonBuilder.key_group, spec_key_group.
    apply same_words_Cat; [apply same_words_refl |].
    apply same_words_Plus, same_words_Sym, alnum_spec_alnum.
  - apply same_words_Star_Plus.
Qed.

Lemma fullmatch_json_path_regex (s : string) :
  fullmatch JsonBuilder.json_path_regex s = true <-> matches spec_grammar s.
Proof.
  rewrite fullmatch_matches. apply json_path_regex_spec_grammar.
Qed.

End Grammar.

(** ** The parser *)

Section Parser.

Import re.

Lemma split_from_cons (sep : ascii) (s cur : string) :
  exists item items, split_from sep s cur = item :: items.
Proof.
  revert cur. induction s as [|c s IH]; intros cur; simpl.
  - eauto.
  - destruct (Ascii.eqb c sep); eauto.
Qed.

Lemma item_components_cons (item : string) :
  exists key rest, JsonBuilder.item_components item = ComponentKey key :: rest.
Proof.
  unfold JsonBuilder.item_components.
  destruct (fullmatch JsonBuilder.item_regex item); eauto.
Qed.

(** Whatever the path, the first component is a key. *)
Lemma get_path_components_cons (json_path : string) :
  exists key rest,
    JsonBuilder.get_path_components json_path = ComponentKey key :: rest.
Proof.
  unfold JsonBuilder.get_path_components, split.
  destruct (split_from_cons "." json_path "") as (item & items & ->).
  simpl. destruct (item_components_cons item) as (key & rest & ->).
  simpl. eauto.
Qed.

Lemma occurs_app (c : ascii) (s1 s2 : string) :
  occurs c (s1 +:+ s2) = occurs c s1 || occurs c s2.
Proof.
  induction s1 as [|c1 s1 IH]; [reflexivity |].
  rewrite append_cons. simpl. rewrite IH. apply orb_assoc.
Qed.

Lemma all_in_occurs (cs : charset) (c : ascii) (s : string) :
  in_charset cs c = false -> all_in cs s = true -> occurs c s = false.
Proof.
  intros Hc. induction s as [|c' s IH]; simpl; [reflexivity |].
  intros Hall. apply andb_true_iff in Hall as [Hc' Hs].
  rewrite (IH Hs), orb_false_r.
  destruct (Ascii.eqb_spec c' c) as [-> |]; [congruence | reflexivity].
Qed.

Lemma split_from_app (sep : ascii) (k rest cur : string) :
  occurs sep k = false ->
  split_from sep (k +:+ rest) cur = split_from sep rest (cur +:+ k).
Proof.
  revert cur. induction k as [|c k IH]; intros cur Hk.
  - rewrite append_nil_l, append_empty_r. reflexivity.
  - simpl in Hk. apply orb_false_iff in Hk as [Hc Hk].
    rewrite append_cons. simpl. rewrite Hc, (IH _ Hk), append_assoc.
    reflexivity.
Qed.

Lemma split_from_dotted (keys : list string) (cur : string) :
  Forall (fun k => occurs "." k = false) keys ->
  split_from "." (dotted keys) cur = cur :: keys.
Proof.
  intros Hkeys. revert cur.
  induction Hkeys as [|k keys Hk _ IH]; intros cur; [reflexivity |].
  simpl dotted. rewrite append_cons. simpl.
  rewrite (split_from_app _ _ _ _ Hk), append_nil_l, IH. reflexivity.
Qed.

(** A word of [item_regex] has an opening bracket. *)
Lemma item_regex_bracket (s : string) :
  matches JsonBuilder.item_regex s -> occurs "[" s = true.
Proof.
  unfold JsonBuilder.item_regex. intros Hm.
  inversion Hm as [| |? ? s1 s2 _ Hm2| | | |]; subst.
  inversion Hm2 as [| |? ? s3 s4 Hm3 _| | | |]; subst.
  inversion Hm3; subst.
  rewrite occurs_app, append_cons. simpl.
  match goal with H : in_charset _ _ = true |- _ => simpl in H; rewrite H end.
  apply orb_true_r.
Qed.

Lemma valid_key_no_dot (k : string) : valid_key k -> occurs "." k = false.
Proof. intros [_ Hk]. revert Hk. apply all_in_occurs. reflexivity. Qed.

(** A key of letters and digits is a component of its own. *)
Lemma item_components_valid_key (k : string) :
  valid_key k -> JsonBuilder.item_components k = [ComponentKey k].
Proof.
  intros [_ Hk]. unfold JsonBuilder.item_components.
  destruct (fullmatch JsonBuilder.item_regex k) eqn:Hfm; [| reflexivity].
  apply fullmatch_matches, item_regex_bracket in Hfm.
  rewrite (all_in_occurs JsonBuilder.alnum "[" k) in Hfm;
    [discriminate | reflexivity | exact Hk].
Qed.

Lemma flat_map_item_components (keys : list string) :
  Forall valid_key keys ->
  flat_map JsonBuilder.item_components keys = map ComponentKey keys.
Proof.
  induction 1 as [|k keys Hk _ IH]; simpl; [reflexivity |].
  rewrite (item_components_valid_key k Hk), IH. reflexivity.
Qed.

(** The components of [$.k1.k2...kn]. *)
Lemma get_path_components_key_path (keys : list string) :
  Forall valid_key keys ->
  JsonBuilder.get_path_components (key_path keys) =
    ComponentKey "$" :: map ComponentKey keys.
Proof.
  intros Hkeys. unfold JsonBuilder.get_path_components, split, key_path.
  simpl split_from. rewrite split_from_dotted.
  - simpl flat_map. rewrite (flat_map_item_components keys Hkeys).
    reflexivity.
  - eapply Forall_impl; [exact Hkeys | apply valid_key_no_dot].
Qed.

Lemma all_in_Star (cs : charset) (s : string) :
  all_in cs s = true -> matches (Star (Sym cs)) s.
Proof.
  induction s as [|c s IH]; simpl; intros Hall; [constructor |].
  apply andb_true_iff in Hall as [Hc Hs].
  change (String c s) with (String c "" +:+ s).
  constructor; [constructor; exact Hc | auto].
Qed.

Lemma all_in_Plus (cs : charset) (s : string) :
  s <> "" -> all_in cs s = true -> matches (Plus (Sym cs)) s.
Proof.
  destruct s as [|c s]; [congruence |]. simpl. intros _ Hall.
  apply andb_true_iff in Hall as [Hc Hs].
  change (String c s) with (String c "" +:+ s).
  constructor; [constructor; exact Hc | apply all_in_Star; exact Hs].
Qed.

Lemma dotted_key_groups (keys : list string) :
  Forall valid_key keys -> matches (Star JsonBuilder.key_group) (dotted keys).
Proof.
  induction 1 as [|k keys [Hne Hk] _ IH]; simpl; [constructor |].
  constructor; [| exact IH].
  change (String "." k) with (String "." "" +:+ k).
  constructor; [constructor; reflexivity | apply all_in_Plus; assumption].
Qed.

(** [__check_path] accepts [$.k1.k2...kn]. *)
Lemma fullmatch_key_path (keys : list string) :
  Forall valid_key keys ->
  fullmatch JsonBuilder.json_path_regex (key_path keys) = true.
Proof.
  intros Hkeys. apply fullmatch_matches.
  unfold key_path, JsonBuilder.json_path_regex.
  change (String "$" (dotted keys)) with (String "$" "" +:+ dotted keys).
  constructor; [constructor; reflexivity |].
  apply matches_Star_one.
  rewrite <- (append_empty_r (dotted keys)).
  constructor; [apply dotted_key_groups; exact Hkeys | constructor].
Qed.

Lemma all_in_app (cs : charset) (s1 s2 : string) :
  all_in cs (s1 +:+ s2) = all_in cs s1 && all_in cs s2.
Proof.
  induction s1 as [|c s1 IH]; [reflexivity |].
  rewrite append_cons. simpl. rewrite IH. apply andb_assoc.
Qed.

Lemma all_in_incl (cs1 cs2 : charset) (s : string) :
  (forall c, in_charset cs1 c = true -> in_charset cs2 c = true) ->
  all_in cs1 s = true -> all_in cs2 s = true.
Proof.
  intros Hincl. induction s as [|c s IH]; simpl; [reflexivity |].
  intros Hall. apply andb_true_iff in Hall as [Hc Hs].
  rewrite (Hincl c Hc), (IH Hs). reflexivity.
Qed.

Lemma all_in_Star_Sym (cs : charset) (s : string) :
  matches (Star (Sym cs)) s -> all_in cs s = true.
Proof.
  intros Hm. remember (Star (Sym cs)) as r eqn:Hr.
  induction Hm; try discriminate; injection Hr as ->; [reflexivity |].
  inversion Hm1; subst. rewrite append_cons, append_nil_l. simpl.
  rewrite IHHm2 by reflexivity. rewrite andb_true_r. assumption.
Qed.

(** An index group is a bracket, digits, a bracket. *)
Lemma index_group_shape (g : string) :
  matches spec_index_group g ->
  exists d, g = String "[" (d +:+ "]") /\ all_in index_chars d = true.
Proof.
  unfold spec_index_group, Plus. intros Hm.
  inversion Hm as [| |? ? s1 s2 Hm1 Hm2| | | |]; subst.
  inversion Hm1 as [|? c1 Hc1| | | | |]; subst.
  inversion Hm2 as [| |? ? s3 s4 Hm3 Hm4| | | |]; subst.
  inversion Hm4 as [|? c4 Hc4| | | | |]; subst.
  inversion Hm3 as [| |? ? s5 s6 Hm5 Hm6| | | |]; subst.
  inversion Hm5 as [|? c5 Hc5| | | | |]; subst.
  apply all_in_Star_Sym in Hm6.
  simpl in Hc1, Hc4. apply Ascii.eqb_eq in Hc1, Hc4. subst c1 c4.
  exists (String c5 s6). rewrite append_cons, append_nil_l. split.
  - rewrite !append_cons, append_nil_l. reflexivity.
  - simpl. apply andb_true_iff. split.
    + simpl in Hc5. rewrite Hc5. apply orb_true_iff. right.
      apply orb_true_r.
    + revert Hm6. apply all_in_incl. intros c Hc. simpl in *. rewrite Hc.
      apply orb_true_iff. right. apply orb_true_r.
Qed.

(** A run of index groups is empty, or goes from a bracket to a bracket
    through brackets and digits. *)
Lemma index_groups_shape (s : string) :
  matches (Star spec_index_group) s ->
  s = "" \/ exists mid,
             s = String "[" (mid +:+ "]") /\ all_in index_chars mid = true.
Proof.
  intros Hm. remember (Star spec_index_group) as r eqn:Hr.
  induction Hm; try discriminate; injection Hr as ->; [left; reflexivity |].
  right. apply index_group_shape in Hm1 as (d & -> & Hd).
  destruct (IHHm2 eq_refl) as [-> | (mid & -> & Hmid)].
  - exists d. rewrite append_empty_r. auto.
  - exists (d +:+ "][" +:+ mid). split.
    + rewrite !append_cons, !append_assoc. reflexivity.
    + rewrite !all_in_app, Hd, Hmid. reflexivity.
Qed.

Lemma key_groups_head (s : string) :
  matches (Star spec_key_group) s -> s = "" \/ exists r, s = String "." r.
Proof.
  intros Hm. remember (Star spec_key_group) as r0 eqn:Hr.
  induction Hm; try discriminate; injection Hr as ->; [left; reflexivity |].
  right. unfold spec_key_group in Hm1.
  inversion Hm1 as [| |? ? s3 s4 Hm3 _| | | |]; subst.
  inversion Hm3 as [|? c Hc| | | | |]; subst.
  simpl in Hc. apply Ascii.eqb_eq in Hc. subst c.
  rewrite !append_cons. eauto.
Qed.

(** After the dollar, a path of the grammar is a run of index groups, and
    then nothing or a dot. *)
Lemma grammar_body_shape (s : string) :
  matches (Star (Cat (Star spec_key_group) (Star spec_index_group))) s ->
  exists groups rest,
    s = groups +:+ rest
    /\ matches (Star spec_index_group) groups
    /\ (rest = "" \/ exists r, rest = String "." r).
Proof.
  intros Hm.
  remember (Star (Cat (Star spec_key_group) (Star spec_index_group))) as r0
    eqn:Hr.
  induction Hm; try discriminate; injection Hr as ->.
  - exists "", "". repeat split; [constructor | auto].
  - destruct (IHHm2 eq_refl) as (groups & rest & -> & Hg & Hrest).
    inversion Hm1 as [| |? ? a b Ha Hb| | | |]; subst.
    destruct (key_groups_head a Ha) as [-> | (r & ->)].
    + exists (b +:+ groups), rest. rewrite append_nil_l, append_assoc.
      repeat split; [apply matches_Star_app; assumption | exact Hrest].
    + exists "", (String "." r +:+ b +:+ groups +:+ rest).
      rewrite append_nil_l, !append_assoc. repeat split; [constructor |].
      right. rewrite append_cons. eauto.
Qed.

Lemma split_from_head (sep : ascii) (groups rest cur : string) :
  occurs sep groups = false ->
  rest = "" \/ (exists r, rest = String sep r) ->
  exists items, split_from sep (groups +:+ rest) cur = (cur +:+ groups) :: items.
Proof.
  intros Hg Hrest. rewrite (split_from_app _ _ _ _ Hg).
  destruct Hrest as [-> | (r & ->)]; simpl; [eauto |].
  rewrite Ascii.eqb_refl. eauto.
Qed.

(** The components of a path of the grammar begin with the key [$]. *)
Lemma get_path_components_dollar (json_path : string) :
  matches spec_grammar json_path ->
  exists rest,
    JsonBuilder.get_path_components json_path = ComponentKey "$" :: rest.
Proof.
  unfold spec_grammar. intros Hm.
  inversion Hm as [| |? ? s1 s2 Hm1 Hm2| | | |]; subst.
  inversion Hm1 as [|? c Hc| | | | |]; subst.
  simpl in Hc. apply Ascii.eqb_eq in Hc. subst c.
  apply grammar_body_shape in Hm2 as (groups & rest & -> & Hg & Hrest).
  apply index_groups_shape in Hg.
  assert (Hnodot : occurs "." groups = false).
  { destruct Hg as [-> | (mid & -> & Hmid)]; [reflexivity |].
    simpl. rewrite occurs_app.
    rewrite (all_in_occurs index_chars "." mid eq_refl Hmid). reflexivity. }
  unfold JsonBuilder.get_path_components, split.
  rewrite append_cons, append_nil_l. simpl split_from.
  destruct (split_from_head "." groups rest "$" Hnodot Hrest)
    as (items & Hitems).
  rewrite append_nil_l. rewrite Hitems. simpl flat_map.
  destruct Hg as [-> | (mid & -> & Hmid)].
  - simpl. eauto.
  - unfold JsonBuilder.item_components.
    replace (fullmatch JsonBuilder.item_regex
               ("$" +:+ String "[" (mid +:+ "]"))) with true.
    + simpl. eauto.
    + symmetry. apply fullmatch_matches. unfold JsonBuilder.item_regex.
      constructor; [apply matches_Plus_one; constructor; reflexivity |].
      change (String "[" (mid +:+ "]")) with (String "[" "" +:+ (mid +:+ "]")).
      constructor; [constructor; reflexivity |].
      constructor; [| constructor; reflexivity].
      apply all_in_Star. revert Hmid. apply all_in_incl.
      intros c Hc. simpl.
      destruct (Ascii.eqb_spec c "010"%char) as [-> |]; [| reflexivity].
      discriminate Hc.
Qed.

Lemma greedy_prefix_app (cs : charset) (k : string) (c : ascii) (r : string) :
  all_in cs k = true ->
  in_charset cs c = false ->
  greedy_prefix cs (k +:+ String c r) = (k, String c r).
Proof.
  intros Hk Hc. induction k as [|c' k IH].
  - rewrite append_nil_l. simpl. rewrite Hc. reflexivity.
  - simpl in Hk. apply andb_true_iff in Hk as [Hc' Hk].
    rewrite append_cons. simpl. rewrite Hc', (IH Hk). reflexivity.
Qed.

(** On an item that [item_regex] matches, the longest head in
    [item_key_chars] is the only one that a bracket follows: it is the
    first group of the pattern that [__get_path_components] uses to take
    the key. *)
Lemma greedy_prefix_item (item : string) :
  matches JsonBuilder.item_regex item ->
  exists key rest,
    item = key +:+ String "[" rest
    /\ key <> ""
    /\ all_in JsonBuilder.item_key_chars key = true
    /\ greedy_prefix JsonBuilder.item_key_chars item = (key, String "[" rest).
Proof.
  unfold JsonBuilder.item_regex, Plus. intros Hm.
  inversion Hm as [| |? ? k s2 Hk Hm2| | | |]; subst.
  inversion Hm2 as [| |? ? s3 s4 Hm3 _| | | |]; subst.
  inversion Hm3 as [|? c Hc| | | | |]; subst.
  simpl in Hc. apply Ascii.eqb_eq in Hc. subst c.
  inversion Hk as [| |? ? k1 k2 Hk1 Hk2| | | |]; subst.
  inversion Hk1 as [|? c1 Hc1| | | | |]; subst.
  apply all_in_Star_Sym in Hk2.
  rewrite !append_cons, !append_nil_l.
  exists (String c1 k2), s4. rewrite append_cons.
  assert (Hall : all_in JsonBuilder.item_key_chars (String c1 k2) = true)
    by (simpl; rewrite Hk2; apply andb_true_iff; auto).
  repeat split; [discriminate | exact Hall |].
  rewrite <- append_cons. apply greedy_prefix_app; [exact Hall | reflexivity].
Qed.

Lemma valid_key_not_dollar (k : string) :
  valid_key k -> String.eqb k "$" = false.
Proof.
  intros [_ Hk]. destruct (String.eqb_spec k "$") as [-> |]; [| reflexivity].
  discriminate Hk.
Qed.

End Parser.

(** ** One step of a component over the store *)

(** Unfold the continuation of a step that has been computed. *)
Ltac go := cbv beta iota zeta.

Section Steps.

Implicit Types (h : heap) (l : loc) (items : list (string * val))
  (elems : list val) (next : option component).

Lemma dict_get_set_eq (k : string) (v : val) items :
  dict_get k (dict_set k v items) = Some v.
Proof.
  induction items as [|[k' v'] items IH]; simpl.
  - rewrite String.eqb_refl. reflexivity.
  - destruct (String.eqb k' k) eqn:Hk; simpl.
    + rewrite String.eqb_refl. reflexivity.
    + rewrite Hk. exact IH.
Qed.

Lemma lookup_insert_app h l (o o' : obj) :
  l < length h -> (<[l := o]> h ++ [o']) !! l = Some o.
Proof.
  intros Hl. rewrite lookup_app_l by (rewrite length_insert; exact Hl).
  apply list_lookup_insert_eq. exact Hl.
Qed.

Lemma ComponentKey_add_not_dict h (key : string) (root : val) next (value : val) :
  ~ is_dict h root ->
  ComponentKey.add key root next value h = (Raise (TypeError (MsgNotDict key)), h).
Proof.
  intros Hnd. unfold ComponentKey.add, bind, isinstance_dict.
  destruct root as [| | | |l| |]; try reflexivity.
  destruct (h !! l) as [[items|elems]|] eqn:Hl; try reflexivity.
  exfalso. apply Hnd. exists l, items. auto.
Qed.

Lemma ComponentKey_add_dollar h l items next (value : val) :
  h !! l = Some (ODict items) ->
  ComponentKey.add "$" (VRef l) next value h = (Ok (VRef l), h).
Proof.
  intros Hl. unfold ComponentKey.add, bind, isinstance_dict.
  rewrite Hl. reflexivity.
Qed.

Lemma ComponentKey_add_value h l items (key : string) next (value : val) :
  h !! l = Some (ODict items) ->
  String.eqb key "$" = false ->
  isinstance_NotSet value = false ->
  ComponentKey.add key (VRef l) next value h =
    (Ok (VRef l), <[l := ODict (dict_set key value items)]> h).
Proof.
  intros Hl Hkey Hv.
  unfold ComponentKey.add, bind, isinstance_dict, dict_setitem, ret.
  rewrite Hl. simpl. rewrite Hkey, Hv. simpl. rewrite Hl. reflexivity.
Qed.

Lemma ComponentKey_add_present h l items (key : string) next (v : val) :
  h !! l = Some (ODict items) ->
  String.eqb key "$" = false ->
  dict_get key items = Some v ->
  ComponentKey.add key (VRef l) next VNotSet h = (Ok v, h).
Proof.
  intros Hl Hkey Hv.
  unfold ComponentKey.add, bind, isinstance_dict, dict_contains, dict_getitem,
    when, ret.
  rewrite Hl. simpl. rewrite Hkey. simpl. rewrite Hl, Hv. simpl.
  rewrite Hl, Hv. reflexivity.
Qed.

Lemma ComponentKey_add_absent h l items (key : string) next :
  h !! l = Some (ODict items) ->
  String.eqb key "$" = false ->
  dict_get key items = None ->
  ComponentKey.add key (VRef l) next VNotSet h =
    (Ok (VRef (length h)),
     <[l := ODict (dict_set key (VRef (length h)) items)]> h
       ++ [container_for_key next]).
Proof.
  intros Hl Hkey Hv.
  assert (Hlt : l < length h) by (eapply lookup_lt_Some; exact Hl).
  unfold ComponentKey.add, bind, isinstance_dict, dict_contains, dict_getitem,
    dict_setitem, when, ret, new_list, new_dict, container_for_key.
  rewrite Hl. simpl. rewrite Hkey. simpl. rewrite Hl, Hv. simpl.
  destruct (isinstance_ComponentIndex next); cbv beta;
    rewrite (lookup_app_l h _ l Hlt), Hl, insert_app_l by exact Hlt;
    rewrite lookup_insert_app by exact Hlt;
    rewrite dict_get_set_eq; reflexivity.
Qed.

Lemma ComponentIndex_add_not_list h (key : nat) (root : val) next (value : val) :
  ~ is_list h root ->
  ComponentIndex.add key root next value h = (Raise (TypeError (MsgNotList key)), h).
Proof.
  intros Hnl. unfold ComponentIndex.add, bind, isinstance_list.
  destruct root as [| | | |l| |]; try reflexivity.
  destruct (h !! l) as [[items|elems]|] eqn:Hl; try reflexivity.
  exfalso. apply Hnl. exists l, elems. auto.
Qed.

Lemma ComponentIndex_add_gap h l elems (key : nat) next (value : val) :
  h !! l = Some (OList elems) ->
  length elems < key ->
  ComponentIndex.add key (VRef l) next value h =
    (Raise (IndexError (MsgIndexTooBig key)), h).
Proof.
  intros Hl Hkey. apply Nat.ltb_lt in Hkey.
  unfold ComponentIndex.add, bind, isinstance_list, list_len.
  rewrite Hl. simpl. rewrite Hl, Hkey. reflexivity.
Qed.

Lemma ComponentIndex_add_value_end h l elems next (value : val) :
  h !! l = Some (OList elems) ->
  isinstance_NotSet value = false ->
  ComponentIndex.add (length elems) (VRef l) next value h =
    (Ok value, <[l := OList (elems ++ [value])]> h).
Proof.
  intros Hl Hv.
  assert (Hlt : l < length h) by (eapply lookup_lt_Some; exact Hl).
  unfold ComponentIndex.add, bind, isinstance_list, list_len, list_append,
    list_setitem, list_getitem, when.
  rewrite Hl. go. cbn [negb]. go. rewrite Hl. go. rewrite Nat.ltb_irrefl. go.
  rewrite Hl. go. rewrite Nat.eqb_refl. go. rewrite Hl, Hv. go. cbn [negb]. go.
  rewrite list_lookup_insert_eq by exact Hlt. go.
  rewrite length_app. cbn [length].
  replace (length elems <? length elems + 1)%nat with true
    by (symmetry; apply Nat.ltb_lt; lia).
  go.
  rewrite list_insert_insert_eq, list_lookup_insert_eq by exact Hlt.
  rewrite insert_app_r_alt, Nat.sub_diag by lia. cbn [insert list_insert].
  rewrite lookup_app_r, Nat.sub_diag by lia. reflexivity.
Qed.

Lemma ComponentIndex_add_value_inside h l elems (key : nat) next (value : val) :
  h !! l = Some (OList elems) ->
  key < length elems ->
  isinstance_NotSet value = false ->
  ComponentIndex.add key (VRef l) next value h =
    (Ok value, <[l := OList (<[key := value]> elems)]> h).
Proof.
  intros Hl Hkey Hv.
  assert (Hlt : l < length h) by (eapply lookup_lt_Some; exact Hl).
  unfold ComponentIndex.add, bind, isinstance_list, list_len, list_append,
    list_setitem, list_getitem, when, ret.
  rewrite Hl. go. cbn [negb]. go. rewrite Hl. go.
  replace (length elems <? key)%nat with false
    by (symmetry; apply Nat.ltb_ge; lia).
  go. rewrite Hl. go.
  replace (length elems =? key)%nat with false
    by (symmetry; apply Nat.eqb_neq; lia).
  go. rewrite Hv. cbn [negb]. go. rewrite Hl. go.
  replace (key <? length elems)%nat with true
    by (symmetry; apply Nat.ltb_lt; lia).
  go. rewrite list_lookup_insert_eq by exact Hlt. go.
  rewrite list_lookup_insert_eq by exact Hkey. reflexivity.
Qed.

Lemma ComponentIndex_add_unset_end h l elems next :
  h !! l = Some (OList elems) ->
  ComponentIndex.add (length elems) (VRef l) next VNotSet h =
    (Ok VNotSet,
     <[l := OList (elems ++ [VNotSet; VRef (length h)])]> h
       ++ [container_for_index next]).
Proof.
  intros Hl.
  assert (Hlt : l < length h) by (eapply lookup_lt_Some; exact Hl).
  unfold ComponentIndex.add, bind, isinstance_list, list_len, list_append,
    list_getitem, when, new_dict, new_list, container_for_index.
  rewrite Hl. go. cbn [negb]. go. rewrite Hl. go. rewrite Nat.ltb_irrefl. go.
  rewrite Hl. go. rewrite Nat.eqb_refl. go. rewrite Hl. go.
  cbn [isinstance_NotSet negb]. go.
  destruct (isinstance_ComponentKey next); go;
    rewrite lookup_insert_app by exact Hlt; go;
    rewrite length_insert;
    rewrite insert_app_l by (rewrite length_insert; exact Hlt);
    rewrite list_insert_insert_eq, lookup_insert_app by exact Hlt; go;
    rewrite <- app_assoc; cbn [app];
    rewrite lookup_app_r, Nat.sub_diag by lia; reflexivity.
Qed.

Lemma ComponentIndex_add_unset_inside h l elems (key : nat) next (x : val) :
  h !! l = Some (OList elems) ->
  elems !! key = Some x ->
  ComponentIndex.add key (VRef l) next VNotSet h =
    (Ok x,
     <[l := OList (elems ++ [VRef (length h)])]> h
       ++ [container_for_index next]).
Proof.
  intros Hl Hx.
  assert (Hlt : l < length h) by (eapply lookup_lt_Some; exact Hl).
  assert (Hkey : key < length elems) by (eapply lookup_lt_Some; exact Hx).
  unfold ComponentIndex.add, bind, isinstance_list, list_len, list_append,
    list_getitem, when, ret, new_dict, new_list, container_for_index.
  rewrite Hl. go. cbn [negb]. go. rewrite Hl. go.
  replace (length elems <? key)%nat with false
    by (symmetry; apply Nat.ltb_ge; lia).
  go. rewrite Hl. go.
  replace (length elems =? key)%nat with false
    by (symmetry; apply Nat.eqb_neq; lia).
  go. cbn [isinstance_NotSet negb]. go.
  destruct (isinstance_ComponentKey next); go;
    rewrite (lookup_app_l h _ l Hlt), Hl; go;
    rewrite insert_app_l by exact Hlt;
    rewrite lookup_insert_app by exact Hlt; go;
    rewrite (lookup_app_l elems _ key Hkey), Hx; reflexivity.
Qed.

End Steps.

(** ** The serializability check *)

Section Checks.

Implicit Types (h : heap) (l : loc) (o root value : val).


Lemma check_json_heap o h : snd (JsonBuilder.check_json o h) = h.
Proof.
  unfold JsonBuilder.check_json, try_except_TypeError, json.dumps, raise.
  destruct (json.encode _ _ _ _) as [[]|[]]; reflexivity.
Qed.

Lemma check_json_serializable h o :
  serializable h o -> JsonBuilder.check_json o h = (Ok tt, h).
Proof.
  unfold serializable, JsonBuilder.check_json, try_except_TypeError.
  intros ->. reflexivity.
Qed.

Lemma check_json_not_serializable h o :
  not_serializable h o ->
  JsonBuilder.check_json o h = (Raise (TypeError (MsgNotSerializable o)), h).
Proof.
  unfold not_serializable, JsonBuilder.check_json, try_except_TypeError.
  intros [m ->]. reflexivity.
Qed.

(** The empty dictionary is serializable. *)
Lemma serializable_empty_dict h l :
  h !! l = Some (ODict []) -> serializable h (VRef l).
Proof.
  intros Hl. unfold serializable, json.dumps. simpl. rewrite Hl. reflexivity.
Qed.

(** An instance of [NotSet] is not. *)
Lemma serializable_not_NotSet h value :
  serializable h value -> isinstance_NotSet value = false.
Proof.
  unfold serializable, json.dumps. destruct value; try reflexivity.
  simpl. discriminate.
Qed.

(** The exceptions of the encoder. *)
Lemma encode_raises (fuel : nat) h (markers : list loc) o (e : exn) :
  json.encode fuel h markers o = Raise e ->
  e = TypeError MsgNotEncodable \/ e = ValueError MsgCircular
  \/ e = RecursionError MsgDepth.
Proof.
  revert markers o. induction fuel as [|fuel IH]; intros markers o;
    destruct o as [| | | |l| |]; simpl; try discriminate;
    try (intros [= <-]; auto);
    destruct (json.on_stack l markers); try (intros [= <-]; auto).
  assert (Hall : forall os,
    (fix encode_all (os : list val) : result unit :=
       match os with
       | [] => Ok tt
       | o' :: os' =>
           match json.encode fuel h (l :: markers) o' with
           | Ok _ => encode_all os'
           | Raise e => Raise e
           end
       end) os = Raise e ->
    e = TypeError MsgNotEncodable \/ e = ValueError MsgCircular
    \/ e = RecursionError MsgDepth).
  { induction os as [|o' os IHos]; [discriminate |].
    destruct (json.encode fuel h (l :: markers) o') eqn:He; [exact IHos |].
    intros [= <-]. eapply IH. exact He. }
  destruct (h !! l) as [[items|elems]|]; [apply Hall | apply Hall |].
  intros [= <-]; auto.
Qed.





Lemma check_json_no_InvalidPath o h (p : string) h' :
  JsonBuilder.check_json o h <> (Raise (ValueError (MsgInvalidPath p)), h').
Proof.
  unfold JsonBuilder.check_json, try_except_TypeError, json.dumps, raise.
  destruct (json.encode _ _ _ _) as [[]|e] eqn:He; [discriminate |].
  apply encode_raises in He as [-> | [-> | ->]]; discriminate.
Qed.

End Checks.

(** ** No component raises a [ValueError] *)

Create HintDb no_value_error.

Section NoValueError.

Lemma no_ValueError_ret {A} (a : A) : no_ValueError (ret a).
Proof. intros h msg h'. discriminate. Qed.

Lemma no_ValueError_bind {A B} (m : M A) (k : A -> M B) :
  no_ValueError m -> (forall a, no_ValueError (k a)) -> no_ValueError (bind m k).
Proof.
  intros Hm Hk h msg h'. unfold bind.
  destruct (m h) as [[a|e] h1] eqn:Hmh; [apply Hk |].
  intros [= -> ->]. exact (Hm _ _ _ Hmh).
Qed.

Lemma no_ValueError_when (b : bool) (m : M unit) :
  no_ValueError m -> no_ValueError (when b m).
Proof. destruct b; [auto | intros _; apply no_ValueError_ret]. Qed.

(** Every primitive is looked at case by case. *)
Ltac primitive :=
  intros h msg h';
  repeat match goal with
         | |- context [match ?x with _ => _ end] => destruct x
         end;
  discriminate.

Lemma no_ValueError_isinstance_dict o : no_ValueError (isinstance_dict o).
Proof. unfold isinstance_dict. primitive. Qed.

Lemma no_ValueError_isinstance_list o : no_ValueError (isinstance_list o).
Proof. unfold isinstance_list. primitive. Qed.

Lemma no_ValueError_new_dict : no_ValueError new_dict.
Proof. unfold new_dict. primitive. Qed.

Lemma no_ValueError_new_list : no_ValueError new_list.
Proof. unfold new_list. primitive. Qed.

Lemma no_ValueError_dict_contains d key : no_ValueError (dict_contains d key).
Proof. unfold dict_contains. primitive. Qed.

Lemma no_ValueError_dict_setitem d key v : no_ValueError (dict_setitem d key v).
Proof. unfold dict_setitem. primitive. Qed.

Lemma no_ValueError_dict_getitem d key : no_ValueError (dict_getitem d key).
Proof. unfold dict_getitem. primitive. Qed.

Lemma no_ValueError_list_len xs : no_ValueError (list_len xs).
Proof. unfold list_len. primitive. Qed.

Lemma no_ValueError_list_append xs x : no_ValueError (list_append xs x).
Proof. unfold list_append. primitive. Qed.

Lemma no_ValueError_list_setitem xs i x : no_ValueError (list_setitem xs i x).
Proof. unfold list_setitem. primitive. Qed.

Lemma no_ValueError_list_getitem xs i : no_ValueError (list_getitem xs i).
Proof. unfold list_getitem. primitive. Qed.

Lemma no_ValueError_TypeError {A} (m : message) :
  no_ValueError (@raise A (TypeError m)).
Proof. intros h msg h'. discriminate. Qed.

Lemma no_ValueError_IndexError {A} (m : message) :
  no_ValueError (@raise A (IndexError m)).
Proof. intros h msg h'. discriminate. Qed.

Hint Resolve no_ValueError_ret no_ValueError_when
  no_ValueError_isinstance_dict no_ValueError_isinstance_list
  no_ValueError_new_dict no_ValueError_new_list no_ValueError_dict_contains
  no_ValueError_dict_setitem no_ValueError_dict_getitem no_ValueError_list_len
  no_ValueError_list_append no_ValueError_list_setitem
  no_ValueError_list_getitem no_ValueError_TypeError
  no_ValueError_IndexError : no_value_error.

Ltac compose :=
  repeat first
    [ apply no_ValueError_bind; [| intros ?]
    | apply no_ValueError_when
    | match goal with
      | |- no_ValueError (if ?b then _ else _) => destruct b
      end
    | solve [auto with no_value_error] ].

Lemma no_ValueError_ComponentKey_add key root next value :
  no_ValueError (ComponentKey.add key root next value).
Proof. unfold ComponentKey.add. compose. Qed.

Lemma no_ValueError_ComponentIndex_add key root next value :
  no_ValueError (ComponentIndex.add key root next value).
Proof. unfold ComponentIndex.add. compose. Qed.

Lemma no_ValueError_component_add c root next value :
  no_ValueError (component_add c root next value).
Proof.
  destruct c; simpl;
    [apply no_ValueError_ComponentKey_add
    | apply no_ValueError_ComponentIndex_add].
Qed.

Lemma no_ValueError_walk root json_path value component_list child :
  no_ValueError (JsonBuilder.walk root json_path value component_list child).
Proof.
  revert child. induction component_list as [|c rest IH]; intros child; simpl.
  - apply no_ValueError_ret.
  - apply no_ValueError_bind; [| intros a; apply IH].
    intros h msg h'. unfold try_except_TypeError, raise.
    destruct (component_add c child _ _ h) as [[a|e] h1] eqn:Hc;
      [discriminate |].
    destruct e; try discriminate.
    intros [= -> ->]. exact (no_ValueError_component_add _ _ _ _ _ _ _ Hc).
Qed.

End NoValueError.

(** ** The walk and the checks of [add] *)

Section Walk.

Implicit Types (h : heap) (l : loc) (root value child : val)
  (json_path : string) (rest : list component).

Lemma walk_ok root json_path value c rest child child' h h' :
  component_add c child (head rest) (component_value rest value) h
    = (Ok child', h') ->
  JsonBuilder.walk root json_path value (c :: rest) child h =
    JsonBuilder.walk root json_path value rest child' h'.
Proof.
  intros Hc. simpl. unfold bind, try_except_TypeError.
  unfold component_value in Hc. rewrite Hc. reflexivity.
Qed.

Lemma walk_TypeError root json_path value c rest child (m : message) h h' :
  component_add c child (head rest) (component_value rest value) h
    = (Raise (TypeError m), h') ->
  JsonBuilder.walk root json_path value (c :: rest) child h =
    (Raise (TypeError (MsgContext m root json_path)), h').
Proof.
  intros Hc. simpl. unfold bind, try_except_TypeError.
  unfold component_value in Hc. rewrite Hc. reflexivity.
Qed.

Lemma walk_IndexError root json_path value c rest child (m : message) h h' :
  component_add c child (head rest) (component_value rest value) h
    = (Raise (IndexError m), h') ->
  JsonBuilder.walk root json_path value (c :: rest) child h =
    (Raise (IndexError m), h').
Proof.
  intros Hc. simpl. unfold bind, try_except_TypeError.
  unfold component_value in Hc. rewrite Hc. reflexivity.
Qed.

Lemma add_not_serializable_root root json_path value h :
  not_serializable h root ->
  JsonBuilder.add root json_path value h =
    (Raise (TypeError (MsgNotSerializable root)), h).
Proof.
  intros Hroot. unfold JsonBuilder.add, bind.
  rewrite (check_json_not_serializable _ _ Hroot). reflexivity.
Qed.

Lemma add_invalid_path root json_path value h :
  serializable h root ->
  re.fullmatch JsonBuilder.json_path_regex json_path = false ->
  JsonBuilder.add root json_path value h =
    (Raise (ValueError (MsgInvalidPath json_path)), h).
Proof.
  intros Hroot Hpath. unfold JsonBuilder.add, bind, JsonBuilder.check_path.
  rewrite (check_json_serializable _ _ Hroot), Hpath. reflexivity.
Qed.

Lemma add_not_serializable_value root json_path value h :
  serializable h root ->
  re.fullmatch JsonBuilder.json_path_regex json_path = true ->
  not_serializable h value ->
  JsonBuilder.add root json_path value h =
    (Raise (TypeError (MsgNotSerializable value)), h).
Proof.
  intros Hroot Hpath Hvalue.
  unfold JsonBuilder.add, bind, JsonBuilder.check_path.
  rewrite (check_json_serializable _ _ Hroot), Hpath. simpl.
  rewrite (check_json_not_serializable _ _ Hvalue). reflexivity.
Qed.

(** Past its three checks, [add] is its walk. *)
Lemma add_checked root json_path value h :
  serializable h root ->
  re.fullmatch JsonBuilder.json_path_regex json_path = true ->
  serializable h value ->
  JsonBuilder.add root json_path value h =
    match JsonBuilder.walk root json_path value
            (JsonBuilder.get_path_components json_path) root h with
    | (Ok _, h') => (Ok root, h')
    | (Raise e, h') => (Raise e, h')
    end.
Proof.
  intros Hroot Hpath Hvalue.
  unfold JsonBuilder.add, bind, JsonBuilder.check_path.
  rewrite (check_json_serializable _ _ Hroot), Hpath. simpl.
  rewrite (check_json_serializable _ _ Hvalue). reflexivity.
Qed.

(** A walk over keys from an empty dictionary: every key makes a new
    dictionary, the last one takes the value, and nothing else in the store
    is touched. *)
Lemma walk_keys root json_path value (keys : list string) :
  keys <> [] ->
  Forall (fun k => String.eqb k "$" = false) keys ->
  isinstance_NotSet value = false ->
  forall h l,
    h !! l = Some (ODict []) ->
    exists h',
      JsonBuilder.walk root json_path value (map ComponentKey keys) (VRef l) h
        = (Ok tt, h')
      /\ get_path h' (VRef l) keys = Some value
      /\ (forall l0, l0 < length h -> l0 <> l -> h' !! l0 = h !! l0).
Proof.
  intros Hne Hkeys Hvalue.
  induction Hkeys as [|k keys Hk Hkeys IH]; [congruence |].
  intros h l Hl.
  assert (Hlt : l < length h) by (eapply lookup_lt_Some; exact Hl).
  destruct keys as [|k2 keys].
  - exists (<[l := ODict [(k, value)]]> h). split; [| split].
    + simpl map. erewrite walk_ok; [reflexivity |].
      simpl. apply (ComponentKey_add_value h l []); assumption.
    + simpl. rewrite list_lookup_insert_eq by exact Hlt. simpl.
      rewrite String.eqb_refl. reflexivity.
    + intros l0 _ Hl0. apply list_lookup_insert_ne. congruence.
  - set (h1 := <[l := ODict [(k, VRef (length h))]]> h ++ [ODict []]).
    assert (Hl1 : h1 !! length h = Some (ODict [])).
    { unfold h1. rewrite lookup_app_r by (rewrite length_insert; lia).
      rewrite length_insert, Nat.sub_diag. reflexivity. }
    destruct (IH ltac:(discriminate) h1 (length h) Hl1) as (h' & Hw & Hg & Hf).
    exists h'. split; [| split].
    + simpl map. erewrite walk_ok; [exact Hw |].
      simpl. apply (ComponentKey_add_absent h l []); auto.
    + assert (Hl' : h' !! l = Some (ODict [(k, VRef (length h))])).
      { rewrite Hf; [| unfold h1; rewrite length_app, length_insert; lia | lia].
        unfold h1. apply lookup_insert_app. exact Hlt. }
      simpl. rewrite Hl'. simpl. rewrite String.eqb_refl. exact Hg.
    + intros l0 Hl0 Hne0. rewrite Hf.
      * unfold h1. rewrite lookup_app_l by (rewrite length_insert; exact Hl0).
        apply list_lookup_insert_ne. congruence.
      * unfold h1. rewrite length_app, length_insert. lia.
      * lia.
Qed.

End Walk.

(** ** The embedding on the examples of the module *)

Section Examples.

Example split_path :
  split "." "$.user.roles[0]" = ["$"; "user"; "roles[0]"].
Proof. reflexivity. Qed.

Example split_keeps_empty_items : split "." "a..b." = ["a"; ""; "b"; ""].
Proof. reflexivity. Qed.

Example findall_digits_runs :
  re.findall_digits "roles[10][2]" = ["10"; "2"].
Proof. reflexivity. Qed.

Example int_digits : int "120" = 120.
Proof. reflexivity. Qed.

Example check_path_accepts :
  re.fullmatch JsonBuilder.json_path_regex "$.user.roles[0][12].x" = true.
Proof. reflexivity. Qed.

Example check_path_rejects :
  re.fullmatch JsonBuilder.json_path_regex "$.user.roles[]" = false
  /\ re.fullmatch JsonBuilder.json_path_regex "$..a" = false
  /\ re.fullmatch JsonBuilder.json_path_regex "$.a-b" = false.
Proof. repeat split; reflexivity. Qed.

Example components_of_path :
  JsonBuilder.get_path_components "$.user.roles[0]" =
    [ComponentKey "$"; ComponentKey "user"; ComponentKey "roles";
     ComponentIndex 0].
Proof. reflexivity. Qed.

(** [add({}, "$.user.roles[0]", "admin")] and then
    [add(result, "$.user.roles[1]", "editor")]. *)
Example add_user_roles :
  JsonBuilder.add (VRef 0) "$.user.roles[0]" (VStr "admin") [ODict []] =
    (Ok (VRef 0),
     [ODict [("user", VRef 1)]; ODict [("roles", VRef 2)];
      OList [VStr "admin"]])
  /\ JsonBuilder.add (VRef 0) "$.user.roles[1]" (VStr "editor")
       [ODict [("user", VRef 1)]; ODict [("roles", VRef 2)];
        OList [VStr "admin"]] =
      (Ok (VRef 0),
       [ODict [("user", VRef 1)]; ODict [("roles", VRef 2)];
        OList [VStr "admin"; VStr "editor"]]).
Proof. split; vm_compute; reflexivity. Qed.

(** A root that holds itself is refused by [json.dumps] with a
    [ValueError], which [__check_json] lets through. *)
Example add_circular_root :
  JsonBuilder.add (VRef 0) "$.a" (VInt 1) [OList [VRef 0]] =
    (Raise (ValueError MsgCircular), [OList [VRef 0]]).
Proof. reflexivity. Qed.

End Examples.

(** * The claims *)

Section Claims.

Implicit Types (h : heap) (l : loc) (root value : val) (json_path : string).

(** C1 (the code departs from the claim).  An intermediate index component
    applied at the end of a list appends the [NotSet] placeholder and then
    appends the new container after it instead of putting it in the place
    of the placeholder: the list grows by two, the placeholder stays at the
    index, and it is the placeholder that is returned for the descent.  So
    [add({}, "$.a[0].b", 1)] raises a [TypeError] from the key [b] and
    leaves [{"a": [NotSet, {}]}] behind, where the claim has
    [{"a": [{"b": 1}]}]. *)
Theorem index_add_at_end_keeps_placeholder :
  (forall h l elems (next : component),
     h !! l = Some (OList elems) ->
     ComponentIndex.add (length elems) (VRef l) (Some next) VNotSet h =
       (Ok VNotSet,
        <[l := OList (elems ++ [VNotSet; VRef (length h)])]> h
          ++ [container_for_index (Some next)]))
  /\ JsonBuilder.add (VRef 0) "$.a[0].b" (VInt 1) [ODict []] =
       (Raise (TypeError (MsgContext (MsgNotDict "b") (VRef 0) "$.a[0].b")),
        [ODict [("a", VRef 1)]; OList [VNotSet; VRef 2]; ODict []]).
Proof.
  split.
  - intros h l elems next Hl. apply ComponentIndex_add_unset_end. exact Hl.
  - vm_compute. reflexivity.
Qed.

Lemma index_add_at_end_keeps_placeholder_witness :
  ComponentIndex.add 0 (VRef 0) (Some (ComponentKey "b")) VNotSet [OList []] =
    (Ok VNotSet, [OList [VNotSet; VRef 1]; ODict []]).
Proof.
  exact (proj1 index_add_at_end_keeps_placeholder [OList []] 0 []
           (ComponentKey "b") eq_refl).
Defined.

(** C2 (the code departs from the claim).  The parser looks for the digits
    of the indices in the whole item, name included, and its pattern for a
    name stops at x: for the segment [a1[0]] it emits the key [a1] and the
    indices 1 and 0, and for the segment [y[0]] a single key [y[0]] and no
    index.  Both paths pass [__check_path]. *)
Theorem get_path_components_digit_or_y_in_name :
  JsonBuilder.get_path_components "$.a1[0]" =
    [ComponentKey "$"; ComponentKey "a1"; ComponentIndex 1; ComponentIndex 0]
  /\ JsonBuilder.get_path_components "$.y[0]" =
       [ComponentKey "$"; ComponentKey "y[0]"]
  /\ re.fullmatch JsonBuilder.json_path_regex "$.a1[0]" = true
  /\ re.fullmatch JsonBuilder.json_path_regex "$.y[0]" = true
  /\ JsonBuilder.add (VRef 0) "$.a1[0]" (VInt 7) [ODict []] =
       (Raise (IndexError (MsgIndexTooBig 1)),
        [ODict [("a1", VRef 1)]; OList []])
  /\ JsonBuilder.add (VRef 0) "$.y[0]" (VInt 7) [ODict []] =
       (Ok (VRef 0), [ODict [("y[0]", VInt 7)]]).
Proof. repeat split; vm_compute; reflexivity. Qed.

(** C3 (the code departs from the claim).  The tree of [{}] holds no
    instance of [NotSet]; after [add({}, "$.a[0].b", 1)] has raised its
    [TypeError], one sits at [root["a"][0]]. *)
Theorem add_leaves_NotSet_in_tree :
  ~ reachable [ODict []] (VRef 0) VNotSet
  /\ exists m h',
       JsonBuilder.add (VRef 0) "$.a[0].b" (VInt 1) [ODict []]
         = (Raise (TypeError m), h')
       /\ get_path h' (VRef 0) ["a"] = Some (VRef 1)
       /\ h' !! 1 = Some (OList [VNotSet; VRef 2])
       /\ reachable h' (VRef 0) VNotSet.
Proof.
  split.
  - intros Hr. inversion Hr as [|? y ? Hc _]; subst.
    inversion Hc as [? ? ? ? Hl Hin|? ? ? Hl _]; subst.
    + injection Hl as <-. inversion Hin.
    + discriminate.
  - eexists _, _. split; [vm_compute; reflexivity |].
    split; [reflexivity |]. split; [reflexivity |].
    eapply rtc_l.
    { eapply (child_of_dict _ 0 _ "a" (VRef 1)); [reflexivity | left]. }
    eapply rtc_l; [| apply rtc_refl].
    eapply (child_of_list _ 1); [reflexivity | left].
Qed.

(** C4 (the code departs from the claim).  An intermediate index component
    applied inside a list returns the element it finds there, but first
    appends a new empty container to the list: the list grows by one.  So
    [add({"a": [{"b": 1}]}, "$.a[0].c", 2)] gives
    [{"a": [{"b": 1, "c": 2}, {}]}]. *)
Theorem index_add_inside_appends :
  (forall h l elems (key : nat) (next : component) (x : val),
     h !! l = Some (OList elems) ->
     elems !! key = Some x ->
     ComponentIndex.add key (VRef l) (Some next) VNotSet h =
       (Ok x,
        <[l := OList (elems ++ [VRef (length h)])]> h
          ++ [container_for_index (Some next)]))
  /\ JsonBuilder.add (VRef 0) "$.a[0].c" (VInt 2)
       [ODict [("a", VRef 1)]; OList [VRef 2]; ODict [("b", VInt 1)]] =
       (Ok (VRef 0),
        [ODict [("a", VRef 1)]; OList [VRef 2; VRef 3];
         ODict [("b", VInt 1); ("c", VInt 2)]; ODict []]).
Proof.
  split.
  - intros h l elems key next x Hl Hx.
    apply ComponentIndex_add_unset_inside; assumption.
  - vm_compute. reflexivity.
Qed.

Lemma index_add_inside_appends_witness :
  ComponentIndex.add 0 (VRef 0) (Some (ComponentKey "c")) VNotSet
    [OList [VInt 5]] =
    (Ok (VInt 5), [OList [VInt 5; VRef 1]; ODict []]).
Proof.
  exact (proj1 index_add_inside_appends [OList [VInt 5]] 0 [VInt 5] 0
           (ComponentKey "c") (VInt 5) eq_refl eq_refl).
Defined.

(** C5.  For a path [$.k1.k2...kn] of one or more keys of letters and
    digits, [add({}, path, v)] returns the root and [root[k1][k2]...[kn]] is
    then [v].  [add({}, "$.a[0]", v)] makes the root [{"a": [v]}], and a
    following [add(root, "$.a[1]", v2)] makes it [{"a": [v, v2]}].  The root
    is an empty dictionary anywhere in the store, and the values are any
    JSON-serializable values. *)
Theorem add_sets_value_at_path :
  (forall h l (keys : list string) value,
     h !! l = Some (ODict []) ->
     keys <> [] ->
     Forall valid_key keys ->
     serializable h value ->
     exists h',
       JsonBuilder.add (VRef l) (key_path keys) value h = (Ok (VRef l), h')
       /\ get_path h' (VRef l) keys = Some value)
  /\ (forall h l (v v2 : val),
        h !! l = Some (ODict []) ->
        serializable h v ->
        exists h1 la,
          JsonBuilder.add (VRef l) "$.a[0]" v h = (Ok (VRef l), h1)
          /\ h1 !! l = Some (ODict [("a", VRef la)])
          /\ h1 !! la = Some (OList [v])
          /\ (serializable h1 (VRef l) ->
              serializable h1 v2 ->
              exists h2,
                JsonBuilder.add (VRef l) "$.a[1]" v2 h1 = (Ok (VRef l), h2)
                /\ h2 !! l = Some (ODict [("a", VRef la)])
                /\ h2 !! la = Some (OList [v; v2]))).
Proof.
  split.
  - intros h l keys value Hl Hne Hkeys Hvalue.
    destruct (walk_keys (VRef l) (key_path keys) value keys Hne) with (h := h) (l := l)
      as (h' & Hw & Hg & _).
    + eapply Forall_impl; [exact Hkeys | apply valid_key_not_dollar].
    + eapply serializable_not_NotSet. exact Hvalue.
    + exact Hl.
    + exists h'. split; [| exact Hg].
      rewrite add_checked;
        [| eapply serializable_empty_dict; exact Hl
         | apply fullmatch_key_path; exact Hkeys
         | exact Hvalue].
      rewrite (get_path_components_key_path keys Hkeys).
      erewrite walk_ok.
      * rewrite Hw. reflexivity.
      * destruct keys; [congruence |].
        simpl. eapply ComponentKey_add_dollar. exact Hl.
  - intros h l v v2 Hl Hv.
    assert (Hlt : l < length h) by (eapply lookup_lt_Some; exact Hl).
    set (la := length h).
    set (h0 := <[l := ODict [("a", VRef la)]]> h ++ [OList []]).
    set (h1 := <[la := OList [v]]> h0).
    assert (Hlen0 : length h0 = S la)
      by (unfold h0; rewrite length_app, length_insert; simpl; lia).
    assert (Hla0 : h0 !! la = Some (OList [])).
    { unfold h0. rewrite lookup_app_r by (rewrite length_insert; lia).
      rewrite length_insert. fold la. rewrite Nat.sub_diag. reflexivity. }
    assert (Hl1 : h1 !! l = Some (ODict [("a", VRef la)])).
    { unfold h1. rewrite list_lookup_insert_ne by (unfold la; lia).
      unfold h0. apply lookup_insert_app. exact Hlt. }
    assert (Hla1 : h1 !! la = Some (OList [v])).
    { unfold h1. apply list_lookup_insert_eq. lia. }
    exists h1, la. split; [| split; [exact Hl1 | split; [exact Hla1 |]]].
    + rewrite add_checked;
        [| eapply serializable_empty_dict; exact Hl | reflexivity | exact Hv].
      change (JsonBuilder.get_path_components "$.a[0]")
        with [ComponentKey "$"; ComponentKey "a"; ComponentIndex 0].
      erewrite walk_ok;
        [| simpl; eapply ComponentKey_add_dollar; exact Hl].
      erewrite walk_ok;
        [| simpl; apply (ComponentKey_add_absent h l []);
           [exact Hl | reflexivity | reflexivity]].
      erewrite walk_ok; [reflexivity |].
      simpl. fold la. fold h0.
      apply (ComponentIndex_add_value_end h0 la []);
        [exact Hla0 | eapply serializable_not_NotSet; exact Hv].
    + intros Hroot1 Hv2.
      exists (<[la := OList [v; v2]]> h1). split; [| split].
      * rewrite add_checked; [| exact Hroot1 | reflexivity | exact Hv2].
        change (JsonBuilder.get_path_components "$.a[1]")
          with [ComponentKey "$"; ComponentKey "a"; ComponentIndex 1].
        erewrite walk_ok;
          [| simpl; eapply ComponentKey_add_dollar; exact Hl1].
        erewrite walk_ok;
          [| simpl; eapply ComponentKey_add_present;
             [exact Hl1 | reflexivity | reflexivity]].
        erewrite walk_ok; [reflexivity |].
        simpl.
        apply (ComponentIndex_add_value_end h1 la [v]);
          [exact Hla1 | eapply serializable_not_NotSet; exact Hv2].
      * rewrite list_lookup_insert_ne by (unfold la; lia). exact Hl1.
      * apply list_lookup_insert_eq. unfold h1. rewrite length_insert. lia.
Qed.

Lemma add_sets_value_at_path_witness :
  key_path ["a"; "b"; "c"] = "$.a.b.c"
  /\ (exists h',
        JsonBuilder.add (VRef 0) "$.a.b.c" (VInt 5) [ODict []]
          = (Ok (VRef 0), h')
        /\ get_path h' (VRef 0) ["a"; "b"; "c"] = Some (VInt 5))
  /\ (exists h1 la,
        JsonBuilder.add (VRef 0) "$.a[0]" (VInt 5) [ODict []]
          = (Ok (VRef 0), h1)
        /\ h1 !! 0 = Some (ODict [("a", VRef la)])
        /\ h1 !! la = Some (OList [VInt 5])
        /\ exists h2,
             JsonBuilder.add (VRef 0) "$.a[1]" (VInt 6) h1 = (Ok (VRef 0), h2)
             /\ h2 !! 0 = Some (ODict [("a", VRef la)])
             /\ h2 !! la = Some (OList [VInt 5; VInt 6])).
Proof.
  split; [reflexivity |]. split.
  - apply (proj1 add_sets_value_at_path [ODict []] 0 ["a"; "b"; "c"] (VInt 5)).
    + reflexivity.
    + discriminate.
    + repeat constructor; discriminate.
    + reflexivity.
  - destruct (proj2 add_sets_value_at_path [ODict []] 0 (VInt 5) (VInt 6)
                eq_refl eq_refl) as (h1 & la & Hadd & Hl & Hla & Hnext).
    exists h1, la. split; [exact Hadd |]. split; [exact Hl |].
    split; [exact Hla |].
    injection Hadd as <-.
    apply Hnext; reflexivity.
Defined.

(** C6.  On a list, an index component raises its [IndexError] exactly when
    the index is greater than the length of the list, and then the store
    is as it was.  So [add(root, "$.a[2]", v)] raises it when [root["a"]]
    is a list of no or one element. *)
Theorem index_add_gap_iff :
  (forall h l elems (key : nat) (next : option component) value,
     h !! l = Some (OList elems) ->
     (length elems < key ->
      ComponentIndex.add key (VRef l) next value h
        = (Raise (IndexError (MsgIndexTooBig key)), h))
     /\ (forall m h',
          ComponentIndex.add key (VRef l) next value h
            = (Raise (IndexError m), h') ->
          length elems < key))
  /\ (forall h l la items elems value,
        h !! l = Some (ODict items) ->
        dict_get "a" items = Some (VRef la) ->
        h !! la = Some (OList elems) ->
        length elems <= 1 ->
        serializable h (VRef l) ->
        serializable h value ->
        JsonBuilder.add (VRef l) "$.a[2]" value h
          = (Raise (IndexError (MsgIndexTooBig 2)), h)).
Proof.
  split.
  - intros h l elems key next value Hl. split.
    + intros Hkey. eapply ComponentIndex_add_gap; eassumption.
    + intros m h' Hadd.
      destruct (Nat.lt_trichotomy (length elems) key) as [Hlt | [Heq | Hgt]];
        [exact Hlt | exfalso | exfalso].
      * subst key. destruct (isinstance_NotSet value) eqn:Hv.
        -- destruct value; try discriminate.
           rewrite (ComponentIndex_add_unset_end h l elems next Hl) in Hadd.
           discriminate.
        -- rewrite (ComponentIndex_add_value_end h l elems next value Hl Hv)
             in Hadd.
           discriminate.
      * destruct (isinstance_NotSet value) eqn:Hv.
        -- destruct value; try discriminate.
           destruct (lookup_lt_is_Some_2 elems key Hgt) as [x Hx].
           rewrite (ComponentIndex_add_unset_inside h l elems key next x Hl Hx)
             in Hadd.
           discriminate.
        -- rewrite (ComponentIndex_add_value_inside h l elems key next value
                      Hl Hgt Hv) in Hadd.
           discriminate.
  - intros h l la items elems value Hl Ha Hla Hlen Hroot Hvalue.
    rewrite add_checked; [| exact Hroot | reflexivity | exact Hvalue].
    change (JsonBuilder.get_path_components "$.a[2]")
      with [ComponentKey "$"; ComponentKey "a"; ComponentIndex 2].
    erewrite walk_ok;
      [| simpl; eapply ComponentKey_add_dollar; exact Hl].
    erewrite walk_ok;
      [| simpl; eapply ComponentKey_add_present;
         [exact Hl | reflexivity | exact Ha]].
    erewrite walk_IndexError; [reflexivity |].
    simpl. eapply ComponentIndex_add_gap; [exact Hla | lia].
Qed.

Lemma index_add_gap_iff_witness :
  ComponentIndex.add 3 (VRef 0) None (VInt 1) [OList [VInt 0]]
    = (Raise (IndexError (MsgIndexTooBig 3)), [OList [VInt 0]])
  /\ JsonBuilder.add (VRef 0) "$.a[2]" (VInt 1)
       [ODict [("a", VRef 1)]; OList [VInt 0]]
      = (Raise (IndexError (MsgIndexTooBig 2)),
         [ODict [("a", VRef 1)]; OList [VInt 0]])
  /\ JsonBuilder.add (VRef 0) "$.a[2]" (VInt 1)
       [ODict [("a", VRef 1)]; OList []]
      = (Raise (IndexError (MsgIndexTooBig 2)),
         [ODict [("a", VRef 1)]; OList []]).
Proof.
  split; [| split].
  - apply (proj1 (proj1 index_add_gap_iff [OList [VInt 0]] 0 [VInt 0] 3 None
                    (VInt 1) eq_refl)).
    simpl. lia.
  - apply (proj2 index_add_gap_iff _ 0 1 [("a", VRef 1)] [VInt 0]);
      first [reflexivity | simpl; lia].
  - apply (proj2 index_add_gap_iff _ 0 1 [("a", VRef 1)] []);
      first [reflexivity | simpl; lia].
Defined.

(** C7.  For a JSON-serializable root, [add] raises the [ValueError] of
    [__check_path] exactly when the path is not a word of the grammar of
    the specification; it raises it with the store as it was; and the path
    [a.b], with no leading dollar, is such a path. *)
Theorem add_invalid_path_iff h root json_path value :
  serializable h root ->
  ((exists p h',
      JsonBuilder.add root json_path value h
        = (Raise (ValueError (MsgInvalidPath p)), h'))
   <-> ~ re.matches spec_grammar json_path)
  /\ (forall p h',
        JsonBuilder.add root json_path value h
          = (Raise (ValueError (MsgInvalidPath p)), h') ->
        p = json_path /\ h' = h)
  /\ JsonBuilder.add root "a.b" value h
       = (Raise (ValueError (MsgInvalidPath "a.b")), h).
Proof.
  intros Hroot.
  assert (Hvalid : re.fullmatch JsonBuilder.json_path_regex json_path = true ->
                   forall p h',
                     JsonBuilder.add root json_path value h
                       <> (Raise (ValueError (MsgInvalidPath p)), h')).
  { intros Hpath p h'. unfold JsonBuilder.add, bind, JsonBuilder.check_path.
    rewrite (check_json_serializable _ _ Hroot), Hpath. simpl.
    destruct (JsonBuilder.check_json value h) as [[[]|e] h1] eqn:Hv.
    - destruct (JsonBuilder.walk _ _ _ _ _ h1) as [[[]|e] h2] eqn:Hw;
        [discriminate |].
      intros [= -> ->]. exact (no_ValueError_walk _ _ _ _ _ _ _ _ Hw).
    - intros [= -> ->]. exact (check_json_no_InvalidPath _ _ _ _ Hv). }
  destruct (re.fullmatch JsonBuilder.json_path_regex json_path) eqn:Hpath.
  - split; [| split].
    + split.
      * intros (p & h' & Hadd). exfalso. exact (Hvalid eq_refl _ _ Hadd).
      * intros Hno. exfalso. apply Hno.
        apply fullmatch_json_path_regex. exact Hpath.
    + intros p h' Hadd. exfalso. exact (Hvalid eq_refl _ _ Hadd).
    + apply add_invalid_path; [exact Hroot | reflexivity].
  - pose proof (add_invalid_path root json_path value h Hroot Hpath) as Hadd.
    split; [| split].
    + split.
      * intros _ Hm. apply fullmatch_json_path_regex in Hm. congruence.
      * intros _. eauto.
    + intros p h'. rewrite Hadd. intros [= <- <-]. auto.
    + apply add_invalid_path; [exact Hroot | reflexivity].
Qed.

Lemma add_invalid_path_iff_witness :
  JsonBuilder.add (VRef 0) "a.b" (VInt 1) [ODict []]
    = (Raise (ValueError (MsgInvalidPath "a.b")), [ODict []]).
Proof.
  exact (proj2 (proj2 (add_invalid_path_iff [ODict []] (VRef 0) "$.a" (VInt 1)
                         eq_refl))).
Defined.

(** C8 as it is stated does not hold: with a serializable root, a path out
    of the grammar and a value that is not serializable, [add] raises the
    [ValueError] of the path, which it checks before the value. *)
Lemma add_not_serializable_value_invalid_path :
  ~ (forall h root json_path value,
       not_serializable h root \/ not_serializable h value ->
       exists o,
         JsonBuilder.add root json_path value h
           = (Raise (TypeError (MsgNotSerializable o)), h)).
Proof.
  intros Hclaim.
  destruct (Hclaim [ODict []] (VRef 0) "a.b" (VObject 0)) as [o Ho].
  - right. exists MsgNotEncodable. reflexivity.
  - vm_compute in Ho. discriminate.
Qed.

(** C8, amended.  If the root is not JSON-serializable, or if the root is,
    the path is a word of the grammar and the value is not JSON-serializable,
    [add] raises the [TypeError] of [__check_json] for that object and the
    store is as it was.  With a serializable root and a path out of the
    grammar it is the [ValueError] of the path that is raised, whatever
    the value, and the store is as it was too. *)
Theorem add_not_serializable h root json_path value :
  (not_serializable h root ->
   JsonBuilder.add root json_path value h
     = (Raise (TypeError (MsgNotSerializable root)), h))
  /\ (serializable h root ->
      re.matches spec_grammar json_path ->
      not_serializable h value ->
      JsonBuilder.add root json_path value h
        = (Raise (TypeError (MsgNotSerializable value)), h))
  /\ (serializable h root ->
      ~ re.matches spec_grammar json_path ->
      JsonBuilder.add root json_path value h
        = (Raise (ValueError (MsgInvalidPath json_path)), h)).
Proof.
  split; [| split].
  - apply add_not_serializable_root.
  - intros Hroot Hpath Hvalue. apply add_not_serializable_value; auto.
    apply fullmatch_json_path_regex. exact Hpath.
  - intros Hroot Hpath. apply add_invalid_path; [exact Hroot |].
    apply fullmatch_false. intros Hm. apply Hpath.
    apply json_path_regex_spec_grammar. exact Hm.
Qed.

Lemma add_not_serializable_witness :
  JsonBuilder.add (VObject 0) "$.a" (VInt 1) [ODict []]
    = (Raise (TypeError (MsgNotSerializable (VObject 0))), [ODict []])
  /\ JsonBuilder.add (VRef 0) "$.a" (VObject 0) [ODict []]
      = (Raise (TypeError (MsgNotSerializable (VObject 0))), [ODict []]).
Proof.
  split.
  - apply (proj1 (add_not_serializable [ODict []] (VObject 0) "$.a" (VInt 1))).
    exists MsgNotEncodable. reflexivity.
  - apply (proj1 (proj2 (add_not_serializable [ODict []] (VRef 0) "$.a"
                           (VObject 0)))).
    + reflexivity.
    + apply fullmatch_json_path_regex. reflexivity.
    + exists MsgNotEncodable. reflexivity.
Defined.

(** C9 as it is stated does not hold: on a root that is a list, which is
    JSON-serializable, [add(root, "$", v)] raises a [TypeError]. *)
Lemma add_dollar_list_root :
  ~ (forall h root value,
       serializable h root -> serializable h value ->
       JsonBuilder.add root "$" value h = (Ok root, h)).
Proof.
  intros Hclaim.
  specialize (Hclaim [OList []] (VRef 0) (VInt 1) eq_refl eq_refl).
  vm_compute in Hclaim. discriminate.
Qed.

(** C9, amended.  For every JSON-serializable root that is a dictionary and
    every JSON-serializable value, [add(root, "$", v)] returns the root and
    the store is as it was: nothing is written anywhere. *)
Theorem add_dollar_dict_root h root value :
  is_dict h root ->
  serializable h root ->
  serializable h value ->
  JsonBuilder.add root "$" value h = (Ok root, h).
Proof.
  intros (l & items & -> & Hl) Hroot Hvalue.
  rewrite add_checked by (assumption || reflexivity).
  change (JsonBuilder.get_path_components "$") with [ComponentKey "$"].
  erewrite walk_ok; [reflexivity |].
  simpl. eapply ComponentKey_add_dollar. exact Hl.
Qed.

Lemma add_dollar_dict_root_witness :
  JsonBuilder.add (VRef 0) "$" (VInt 1) [ODict [("k", VStr "v")]]
    = (Ok (VRef 0), [ODict [("k", VStr "v")]]).
Proof.
  apply add_dollar_dict_root.
  - exists 0, [("k", VStr "v")]. split; reflexivity.
  - reflexivity.
  - reflexivity.
Defined.

(** C10.  For every JSON-serializable root that is not a dictionary, every
    path of the grammar and every JSON-serializable value, the components
    of the path begin with the key [$], and [add] raises the [TypeError] of
    that key component, with the context that [add] puts around it; the
    store is as it was. *)
Theorem add_non_dict_root h root json_path value :
  ~ is_dict h root ->
  serializable h root ->
  serializable h value ->
  re.matches spec_grammar json_path ->
  (exists rest,
     JsonBuilder.get_path_components json_path = ComponentKey "$" :: rest)
  /\ JsonBuilder.add root json_path value h
      = (Raise (TypeError (MsgContext (MsgNotDict "$") root json_path)), h).
Proof.
  intros Hnd Hroot Hvalue Hpath.
  destruct (get_path_components_dollar json_path Hpath) as (rest & Hcs).
  split; [exists rest; exact Hcs |].
  apply fullmatch_json_path_regex in Hpath.
  rewrite add_checked by assumption. rewrite Hcs.
  erewrite walk_TypeError; [reflexivity |].
  simpl. apply ComponentKey_add_not_dict. exact Hnd.
Qed.

Lemma add_non_dict_root_witness :
  (exists rest,
     JsonBuilder.get_path_components "$[0].a" = ComponentKey "$" :: rest)
  /\ JsonBuilder.add (VRef 0) "$[0].a" (VInt 1) [OList [VInt 3]]
      = (Raise (TypeError (MsgContext (MsgNotDict "$") (VRef 0) "$[0].a")),
         [OList [VInt 3]]).
Proof.
  apply add_non_dict_root.
  - intros (l & items & Hr & Hl). injection Hr as <-. discriminate.
  - reflexivity.
  - reflexivity.
  - apply fullmatch_json_path_regex. reflexivity.
Defined.

End Claims.

(** * Further properties of the module *)

(** ** The store only grows *)

Create HintDb grows.

Section Grows.

Implicit Types (h : heap) (l : loc) (o : obj).

Lemma dict_get_set_ne (k k' : string) (v : val) (items : list (string * val)) :
  k <> k' -> dict_get k (dict_set k' v items) = dict_get k items.
Proof.
  intros Hne. induction items as [|[k0 v0] items IH]; simpl.
  - destruct (String.eqb_spec k' k); [congruence | reflexivity].
  - destruct (String.eqb_spec k0 k') as [-> | Hk0]; simpl.
    + destruct (String.eqb_spec k' k); [congruence | reflexivity].
    + destruct (String.eqb_spec k0 k); [reflexivity | exact IH].
Qed.

Lemma dict_set_keeps_keys (k k' : string) (v : val) (items : list (string * val)) :
  is_Some (dict_get k items) -> is_Some (dict_get k (dict_set k' v items)).
Proof.
  intros Hk. destruct (String.eqb_spec k k') as [-> | Hne].
  - rewrite dict_get_set_eq. eauto.
  - rewrite dict_get_set_ne by exact Hne. exact Hk.
Qed.

Lemma obj_grows_refl o : obj_grows o o.
Proof. destruct o; simpl; auto. Qed.

Lemma obj_grows_trans o1 o2 o3 :
  obj_grows o1 o2 -> obj_grows o2 o3 -> obj_grows o1 o3.
Proof.
  destruct o1, o2, o3; simpl; try tauto; [auto | lia].
Qed.

Lemma store_grows_refl h : store_grows h h.
Proof. intros l o Hl. exists o. split; [exact Hl | apply obj_grows_refl]. Qed.

Lemma store_grows_trans h1 h2 h3 :
  store_grows h1 h2 -> store_grows h2 h3 -> store_grows h1 h3.
Proof.
  intros H12 H23 l o1 Hl.
  destruct (H12 l o1 Hl) as (o2 & Hl2 & Hg12).
  destruct (H23 l o2 Hl2) as (o3 & Hl3 & Hg23).
  exists o3. split; [exact Hl3 | eapply obj_grows_trans; eassumption].
Qed.

Lemma store_grows_insert h l o o' :
  h !! l = Some o -> obj_grows o o' -> store_grows h (<[l := o']> h).
Proof.
  intros Hl Hg l0 o0 Hl0. destruct (decide (l0 = l)) as [-> | Hne].
  - exists o'. split.
    + apply list_lookup_insert_eq. eapply lookup_lt_Some. exact Hl.
    + congruence.
  - exists o0. split; [| apply obj_grows_refl].
    rewrite list_lookup_insert_ne by congruence. exact Hl0.
Qed.

Lemma store_grows_app h o : store_grows h (h ++ [o]).
Proof.
  intros l o0 Hl. exists o0. split; [| apply obj_grows_refl].
  rewrite lookup_app_l by (eapply lookup_lt_Some; exact Hl). exact Hl.
Qed.

Lemma grows_only_ret {A} (a : A) : grows_only (ret a).
Proof. intros h r h' [= <- <-]. apply store_grows_refl. Qed.

Lemma grows_only_raise {A} (e : exn) : grows_only (@raise A e).
Proof. intros h r h' [= <- <-]. apply store_grows_refl. Qed.

Lemma grows_only_bind {A B} (m : M A) (k : A -> M B) :
  grows_only m -> (forall a, grows_only (k a)) -> grows_only (bind m k).
Proof.
  intros Hm Hk h r h'. unfold bind.
  destruct (m h) as [[a|e] h1] eqn:Hmh.
  - intros Hka. eapply store_grows_trans; [exact (Hm _ _ _ Hmh) |].
    exact (Hk _ _ _ _ Hka).
  - intros [= <- <-]. exact (Hm _ _ _ Hmh).
Qed.

Lemma grows_only_when (b : bool) (m : M unit) :
  grows_only m -> grows_only (when b m).
Proof. destruct b; [auto | intros _; apply grows_only_ret]. Qed.

Lemma grows_only_try {A} (m : M A) (handler : message -> M A) :
  grows_only m -> (forall error, grows_only (handler error)) ->
  grows_only (try_except_TypeError m handler).
Proof.
  intros Hm Hh h r h'. unfold try_except_TypeError.
  destruct (m h) as [[a|e] h1] eqn:Hmh.
  - intros [= <- <-]. exact (Hm _ _ _ Hmh).
  - destruct e; try (intros [= <- <-]; exact (Hm _ _ _ Hmh)).
    intros Hr. eapply store_grows_trans; [exact (Hm _ _ _ Hmh) |].
    exact (Hh _ _ _ _ Hr).
Qed.

(** A primitive that reads the store, or fails, leaves it as it is. *)
Ltac reads :=
  intros h r h';
  repeat match goal with
         | |- context [match ?x with _ => _ end] => destruct x
         end;
  intros [= <- <-]; apply store_grows_refl.

Lemma grows_only_isinstance_dict v : grows_only (isinstance_dict v).
Proof. unfold isinstance_dict. reads. Qed.

Lemma grows_only_isinstance_list v : grows_only (isinstance_list v).
Proof. unfold isinstance_list. reads. Qed.

Lemma grows_only_dict_contains d key : grows_only (dict_contains d key).
Proof. unfold dict_contains. reads. Qed.

Lemma grows_only_dict_getitem d key : grows_only (dict_getitem d key).
Proof. unfold dict_getitem. reads. Qed.

Lemma grows_only_list_len xs : grows_only (list_len xs).
Proof. unfold list_len. reads. Qed.

Lemma grows_only_list_getitem xs i : grows_only (list_getitem xs i).
Proof. unfold list_getitem. reads. Qed.

Lemma grows_only_new_dict : grows_only new_dict.
Proof. intros h r h' [= <- <-]. apply store_grows_app. Qed.

Lemma grows_only_new_list : grows_only new_list.
Proof. intros h r h' [= <- <-]. apply store_grows_app. Qed.

Lemma grows_only_dict_setitem d key v : grows_only (dict_setitem d key v).
Proof.
  intros h r h'. unfold dict_setitem.
  destruct d as [| | | |l| |]; try (intros [= <- <-]; apply store_grows_refl).
  destruct (h !! l) as [[items|elems]|] eqn:Hl;
    try (intros [= <- <-]; apply store_grows_refl).
  intros [= <- <-]. eapply store_grows_insert; [exact Hl |].
  simpl. intros k. apply dict_set_keeps_keys.
Qed.

Lemma grows_only_list_append xs x : grows_only (list_append xs x).
Proof.
  intros h r h'. unfold list_append.
  destruct xs as [| | | |l| |]; try (intros [= <- <-]; apply store_grows_refl).
  destruct (h !! l) as [[items|elems]|] eqn:Hl;
    try (intros [= <- <-]; apply store_grows_refl).
  intros [= <- <-]. eapply store_grows_insert; [exact Hl |].
  simpl. rewrite length_app. lia.
Qed.

Lemma grows_only_list_setitem xs i x : grows_only (list_setitem xs i x).
Proof.
  intros h r h'. unfold list_setitem.
  destruct xs as [| | | |l| |]; try (intros [= <- <-]; apply store_grows_refl).
  destruct (h !! l) as [[items|elems]|] eqn:Hl;
    try (intros [= <- <-]; apply store_grows_refl).
  destruct (i <? length elems)%nat;
    [| intros [= <- <-]; apply store_grows_refl].
  intros [= <- <-]. eapply store_grows_insert; [exact Hl |].
  simpl. rewrite length_insert. lia.
Qed.

Hint Resolve grows_only_ret grows_only_raise grows_only_when
  grows_only_isinstance_dict grows_only_isinstance_list
  grows_only_dict_contains grows_only_dict_getitem grows_only_list_len
  grows_only_list_getitem grows_only_new_dict grows_only_new_list
  grows_only_dict_setitem grows_only_list_append grows_only_list_setitem
  : grows.

Ltac grows :=
  repeat first
    [ apply grows_only_bind; [| intros ?]
    | apply grows_only_when
    | match goal with
      | |- grows_only (if ?b then _ else _) => destruct b
      end
    | solve [auto with grows] ].

Lemma grows_only_ComponentKey_add key root next value :
  grows_only (ComponentKey.add key root next value).
Proof. unfold ComponentKey.add. grows. Qed.

Lemma grows_only_ComponentIndex_add key root next value :
  grows_only (ComponentIndex.add key root next value).
Proof. unfold ComponentIndex.add. grows. Qed.

Lemma grows_only_component_add c root next value :
  grows_only (component_add c root next value).
Proof.
  destruct c; simpl;
    [apply grows_only_ComponentKey_add | apply grows_only_ComponentIndex_add].
Qed.

Lemma grows_only_walk root json_path value component_list child :
  grows_only (JsonBuilder.walk root json_path value component_list child).
Proof.
  revert child. induction component_list as [|c rest IH]; intros child; simpl.
  - apply grows_only_ret.
  - apply grows_only_bind; [| intros a; apply IH].
    apply grows_only_try; [apply grows_only_component_add |].
    intros error. apply grows_only_raise.
Qed.

Lemma grows_only_check_json (v : val) : grows_only (JsonBuilder.check_json v).
Proof.
  intros h r h' Hc. pose proof (check_json_heap v h) as Hh.
  rewrite Hc in Hh. simpl in Hh. subst h'. apply store_grows_refl.
Qed.

Lemma grows_only_check_path json_path :
  grows_only (JsonBuilder.check_path json_path).
Proof.
  unfold JsonBuilder.check_path.
  destruct (negb _); [apply grows_only_raise | apply grows_only_ret].
Qed.

Lemma grows_only_add root json_path value :
  grows_only (JsonBuilder.add root json_path value).
Proof.
  unfold JsonBuilder.add.
  repeat (apply grows_only_bind; [| intros ?]);
    auto using grows_only_check_json, grows_only_check_path,
      grows_only_walk, grows_only_ret.
Qed.

End Grows.

(** ** What a component and [add] can raise *)

Section Raises.

Implicit Types (h : heap) (l : loc) (root value child : val)
  (json_path : string) (next : option component).

Lemma is_dict_dec h root : is_dict h root \/ ~ is_dict h root.
Proof.
  destruct root as [| | | |l| |];
    try (right; intros (l0 & items & Hr & _); discriminate).
  destruct (h !! l) as [[items|elems]|] eqn:Hl.
  - left. exists l, items. auto.
  - right. intros (l0 & items & [= <-] & Hl0). congruence.
  - right. intros (l0 & items & [= <-] & Hl0). congruence.
Qed.

Lemma is_list_dec h root : is_list h root \/ ~ is_list h root.
Proof.
  destruct root as [| | | |l| |];
    try (right; intros (l0 & elems & Hr & _); discriminate).
  destruct (h !! l) as [[items|elems]|] eqn:Hl.
  - right. intros (l0 & elems & [= <-] & Hl0). congruence.
  - left. exists l, elems. auto.
  - right. intros (l0 & elems & [= <-] & Hl0). congruence.
Qed.

Lemma isinstance_NotSet_true value :
  isinstance_NotSet value = true -> value = VNotSet.
Proof. destruct value; try discriminate. reflexivity. Qed.

Lemma ComponentKey_add_raises h (key : string) root next value (e : exn) h' :
  ComponentKey.add key root next value h = (Raise e, h') ->
  e = TypeError (MsgNotDict key) /\ h' = h /\ ~ is_dict h root.
Proof.
  intros Hadd. destruct (is_dict_dec h root) as [(l & items & -> & Hl) | Hnd].
  - exfalso. destruct (String.eqb_spec key "$") as [-> | Hkey].
    + rewrite (ComponentKey_add_dollar h l items next value Hl) in Hadd.
      discriminate.
    + apply String.eqb_neq in Hkey.
      destruct (isinstance_NotSet value) eqn:Hv.
      * apply isinstance_NotSet_true in Hv. subst value.
        destruct (dict_get key items) as [v|] eqn:Hg.
        -- rewrite (ComponentKey_add_present h l items key next v Hl Hkey Hg)
             in Hadd.
           discriminate.
        -- rewrite (ComponentKey_add_absent h l items key next Hl Hkey Hg)
             in Hadd.
           discriminate.
      * rewrite (ComponentKey_add_value h l items key next value Hl Hkey Hv)
          in Hadd.
        discriminate.
  - rewrite (ComponentKey_add_not_dict h key root next value Hnd) in Hadd.
    injection Hadd as <- <-. auto.
Qed.

Lemma ComponentIndex_add_raises h (key : nat) root next value (e : exn) h' :
  ComponentIndex.add key root next value h = (Raise e, h') ->
  (e = TypeError (MsgNotList key) \/ e = IndexError (MsgIndexTooBig key))
  /\ h' = h.
Proof.
  intros Hadd. destruct (is_list_dec h root) as [(l & elems & -> & Hl) | Hnl].
  - destruct (Nat.lt_trichotomy (length elems) key) as [Hlt | [Heq | Hgt]].
    + rewrite (ComponentIndex_add_gap h l elems key next value Hl Hlt) in Hadd.
      injection Hadd as <- <-. auto.
    + exfalso. subst key. destruct (isinstance_NotSet value) eqn:Hv.
      * apply isinstance_NotSet_true in Hv. subst value.
        rewrite (ComponentIndex_add_unset_end h l elems next Hl) in Hadd.
        discriminate.
      * rewrite (ComponentIndex_add_value_end h l elems next value Hl Hv)
          in Hadd.
        discriminate.
    + exfalso. destruct (isinstance_NotSet value) eqn:Hv.
      * apply isinstance_NotSet_true in Hv. subst value.
        destruct (lookup_lt_is_Some_2 elems key Hgt) as [x Hx].
        rewrite (ComponentIndex_add_unset_inside h l elems key next x Hl Hx)
          in Hadd.
        discriminate.
      * rewrite (ComponentIndex_add_value_inside h l elems key next value
                   Hl Hgt Hv) in Hadd.
        discriminate.
  - rewrite (ComponentIndex_add_not_list h key root next value Hnl) in Hadd.
    injection Hadd as <- <-. auto.
Qed.

Lemma component_add_raises h (c : component) root next value (e : exn) h' :
  component_add c root next value h = (Raise e, h') ->
  component_exception c e /\ h' = h.
Proof.
  destruct c as [key|key]; simpl; intros Hadd.
  - apply ComponentKey_add_raises in Hadd as (-> & -> & _).
    split; [constructor | reflexivity].
  - apply ComponentIndex_add_raises in Hadd as ([-> | ->] & ->);
      (split; [constructor | reflexivity]).
Qed.


Lemma check_json_Ok (o : val) h (u : unit) h' :
  JsonBuilder.check_json o h = (Ok u, h') -> serializable h o /\ h' = h.
Proof.
  unfold JsonBuilder.check_json, try_except_TypeError, serializable, json.dumps,
    raise.
  destruct (json.encode _ _ _ _) as [[]|[]]; try discriminate.
  intros [= <-]. auto.
Qed.


End Raises.

(** ** The parser on a name followed by indices *)

Section Indexed.

Import re.

Lemma letters_not_digit (c : ascii) :
  in_charset letters_a_x c = true -> in_charset digit c = false.
Proof.
  destruct c as [[] [] [] [] [] [] [] []]; try reflexivity; discriminate.
Qed.

Lemma letters_item_key_chars (c : ascii) :
  in_charset letters_a_x c = true ->
  in_charset JsonBuilder.item_key_chars c = true.
Proof.
  destruct c as [[] [] [] [] [] [] [] []]; try reflexivity; discriminate.
Qed.

Lemma letters_spec_alnum (c : ascii) :
  in_charset letters_a_x c = true -> in_charset spec_alnum c = true.
Proof.
  destruct c as [[] [] [] [] [] [] [] []]; try reflexivity; discriminate.
Qed.

Lemma digit_index_chars (c : ascii) :
  in_charset digit c = true -> in_charset index_chars c = true.
Proof.
  destruct c as [[] [] [] [] [] [] [] []]; try reflexivity; discriminate.
Qed.

Lemma findall_digits_from_run (d : string) (c : ascii) (s run : string) :
  all_in digit d = true ->
  in_charset digit c = false ->
  findall_digits_from (d +:+ String c s) run =
    flush (run +:+ d) ++ findall_digits_from s "".
Proof.
  revert run. induction d as [|c' d IH]; intros run Hd Hc.
  - rewrite append_nil_l, append_empty_r. cbn [findall_digits_from].
    rewrite Hc. reflexivity.
  - cbn [all_in] in Hd. apply andb_true_iff in Hd as [Hc' Hd].
    rewrite append_cons. cbn [findall_digits_from]. rewrite Hc'.
    rewrite (IH _ Hd Hc), append_assoc. reflexivity.
Qed.

Lemma findall_digits_brackets (ds : list string) :
  Forall digits ds -> findall_digits_from (brackets ds) "" = ds.
Proof.
  induction 1 as [|d ds [Hne Hd] _ IH]; [reflexivity |].
  cbn [brackets findall_digits_from].
  replace (in_charset digit "[") with false by reflexivity.
  cbn [flush app].
  rewrite (findall_digits_from_run d "]" _ "" Hd eq_refl), append_nil_l, IH.
  destruct d; [congruence | reflexivity].
Qed.

Lemma findall_digits_name (name s : string) :
  all_in letters_a_x name = true ->
  findall_digits_from (name +:+ s) "" = findall_digits_from s "".
Proof.
  induction name as [|c name IH]; intros Hname; [reflexivity |].
  cbn [all_in] in Hname. apply andb_true_iff in Hname as [Hc Hname].
  rewrite append_cons. cbn [findall_digits_from].
  rewrite (letters_not_digit c Hc). cbn [flush app]. apply IH. exact Hname.
Qed.

Lemma brackets_index_groups (ds : list string) :
  Forall digits ds -> matches (Star spec_index_group) (brackets ds).
Proof.
  induction 1 as [|d ds [Hne Hd] _ IH]; [constructor |].
  simpl brackets.
  change (String "[" (d +:+ String "]" (brackets ds)))
    with (String "[" (d +:+ "]") +:+ brackets ds)
    || replace (String "[" (d +:+ String "]" (brackets ds)))
         with (String "[" (d +:+ "]") +:+ brackets ds)
         by (rewrite append_cons, append_assoc; reflexivity).
  constructor; [| exact IH].
  unfold spec_index_group.
  change (String "[" (d +:+ "]")) with (String "[" "" +:+ (d +:+ "]")).
  constructor; [constructor; reflexivity |].
  constructor; [apply all_in_Plus; assumption | constructor; reflexivity].
Qed.

Lemma brackets_chars (ds : list string) :
  Forall digits ds -> all_in index_chars (brackets ds) = true.
Proof.
  induction 1 as [|d ds [Hne Hd] _ IH]; [reflexivity |].
  cbn [brackets all_in]. rewrite all_in_app. cbn [all_in]. rewrite IH.
  rewrite (all_in_incl digit index_chars d digit_index_chars Hd). reflexivity.
Qed.

Lemma brackets_shape (ds : list string) :
  ds <> [] -> Forall digits ds ->
  exists mid,
    brackets ds = String "[" (mid +:+ "]") /\ all_in index_chars mid = true.
Proof.
  intros Hne Hds.
  destruct (index_groups_shape _ (brackets_index_groups ds Hds))
    as [Hempty | Hshape]; [| exact Hshape].
  destruct ds; [congruence | discriminate].
Qed.

Lemma index_chars_AnyChar (c : ascii) :
  in_charset index_chars c = true -> in_charset AnyChar c = true.
Proof.
  destruct c as [[] [] [] [] [] [] [] []]; try reflexivity; discriminate.
Qed.

Lemma item_components_indexed (name : string) (ds : list string) :
  name <> "" -> all_in letters_a_x name = true ->
  ds <> [] -> Forall digits ds ->
  JsonBuilder.item_components (name +:+ brackets ds) =
    ComponentKey name :: map (fun d => ComponentIndex (int d)) ds.
Proof.
  intros Hne Hname Hds Hdigits.
  destruct (brackets_shape ds Hds Hdigits) as (mid & Hb & Hmid).
  assert (Hkey : all_in JsonBuilder.item_key_chars name = true)
    by (revert Hname; apply all_in_incl, letters_item_key_chars).
  unfold JsonBuilder.item_components, findall_digits.
  replace (fullmatch JsonBuilder.item_regex (name +:+ brackets ds)) with true.
  - rewrite (findall_digits_name _ _ Hname), (findall_digits_brackets _ Hdigits).
    rewrite Hb, greedy_prefix_app by (exact Hkey || reflexivity).
    reflexivity.
  - symmetry. apply fullmatch_matches. unfold JsonBuilder.item_regex.
    constructor; [apply all_in_Plus; assumption |].
    rewrite Hb.
    change (String "[" (mid +:+ "]")) with (String "[" "" +:+ (mid +:+ "]")).
    constructor; [constructor; reflexivity |].
    constructor; [| constructor; reflexivity].
    apply all_in_Star. revert Hmid. apply all_in_incl, index_chars_AnyChar.
Qed.

Lemma get_path_components_indexed (name : string) (ds : list string) :
  name <> "" -> all_in letters_a_x name = true ->
  ds <> [] -> Forall digits ds ->
  JsonBuilder.get_path_components (indexed_path name ds) =
    ComponentKey "$" :: ComponentKey name
      :: map (fun d => ComponentIndex (int d)) ds.
Proof.
  intros Hne Hname Hds Hdigits.
  assert (Hnodot : occurs "." (name +:+ brackets ds) = false).
  { rewrite occurs_app.
    rewrite (all_in_occurs letters_a_x "." name eq_refl Hname).
    rewrite (all_in_occurs index_chars "." _ eq_refl (brackets_chars ds Hdigits)).
    reflexivity. }
  unfold JsonBuilder.get_path_components, split, indexed_path.
  simpl split_from.
  assert (Hsplit : split_from "." (name +:+ brackets ds) ""
                   = [name +:+ brackets ds]).
  { rewrite <- (append_empty_r (name +:+ brackets ds)) at 1.
    rewrite (split_from_app "." _ "" "" Hnodot). reflexivity. }
  rewrite Hsplit, append_nil_l. cbn [flat_map].
  rewrite (item_components_indexed name ds Hne Hname Hds Hdigits).
  rewrite app_nil_r. reflexivity.
Qed.

Lemma fullmatch_indexed_path (name : string) (ds : list string) :
  name <> "" -> all_in letters_a_x name = true -> Forall digits ds ->
  fullmatch JsonBuilder.json_path_regex (indexed_path name ds) = true.
Proof.
  intros Hne Hname Hdigits. apply fullmatch_json_path_regex.
  unfold indexed_path, spec_grammar.
  change (String "$" (String "." (name +:+ brackets ds)))
    with (String "$" "" +:+ String "." (name +:+ brackets ds)).
  constructor; [constructor; reflexivity |].
  apply matches_Star_one.
  change (String "." (name +:+ brackets ds))
    with (String "." name +:+ brackets ds).
  constructor; [| apply brackets_index_groups; exact Hdigits].
  apply matches_Star_one. unfold spec_key_group.
  change (String "." name) with (String "." "" +:+ name).
  constructor; [constructor; reflexivity |].
  apply all_in_Plus; [exact Hne |].
  revert Hname. apply all_in_incl, letters_spec_alnum.
Qed.

End Indexed.

(** ** The paths that [__check_path] accepts *)

Section Groups.

Import re.

Lemma matches_Star_flatten (r r' : regex) (s : string) :
  (forall t, matches r' t -> matches (Star r) t) ->
  matches (Star r') s -> matches (Star r) s.
Proof.
  intros Hincl Hm. remember (Star r') as r0 eqn:Hr0.
  induction Hm; try discriminate; injection Hr0 as ->.
  - constructor.
  - apply matches_Star_app; auto.
Qed.

Lemma same_words_groups (a b : regex) :
  same_words (Star (Cat (Star a) (Star (Plus b)))) (Star (Alt a b)).
Proof.
  intros s. split.
  - apply matches_Star_flatten. intros t Ht.
    inversion Ht as [| |? ? x y Hx Hy| | | |]; subst.
    apply matches_Star_app.
    + revert Hx. apply matches_Star_incl. intros u. apply MAltL.
    + apply (proj1 (same_words_Star_Plus b y)) in Hy. revert Hy.
      apply matches_Star_incl. intros u. apply MAltR.
  - apply matches_Star_incl. intros t Ht.
    inversion Ht; subst.
    + rewrite <- (append_empty_r t).
      constructor; [apply matches_Star_one; assumption | constructor].
    + rewrite <- (append_nil_l t).
      constructor; [constructor |].
      apply matches_Star_one, matches_Plus_one. assumption.
Qed.

End Groups.

(** ** Properties of the components and of [add] beyond the claims *)

Section Extras.

Implicit Types (h : heap) (l : loc) (root value child : val)
  (json_path : string) (next : option component).

(** X1.  A component that raises leaves the store exactly as it was, and
    what it raises is its own exception: for a key the [TypeError] of a
    target that is not a dictionary; for an index the [TypeError] of a
    target that is not a list or the [IndexError] of an index beyond the
    end.  The failures of the operations underneath ([KeyError], an index
    out of range on assignment or on reading, a missing [append]) are never
    reached. *)
Theorem component_add_raises_unchanged h (c : component) root next value
    (e : exn) h' :
  component_add c root next value h = (Raise e, h') ->
  component_exception c e /\ h' = h.
Proof. apply component_add_raises. Qed.

Lemma component_add_raises_unchanged_witness :
  component_exception (ComponentIndex 3) (IndexError (MsgIndexTooBig 3))
  /\ [OList [VInt 1]] = [OList [VInt 1]].
Proof.
  exact (component_add_raises_unchanged [OList [VInt 1]] (ComponentIndex 3)
           (VRef 0) None (VInt 2) _ _ eq_refl).
Defined.

(** X2.  A key component raises exactly when its target is not a
    dictionary: on a dictionary it never fails, whatever the key, the next
    component and the value.  An index component raises exactly when its
    target is not a list, or is a list shorter than the index. *)
Theorem component_add_raises_iff h root next value :
  (forall key : string,
     (exists e h', ComponentKey.add key root next value h = (Raise e, h'))
     <-> ~ is_dict h root)
  /\ (forall key : nat,
        (exists e h', ComponentIndex.add key root next value h = (Raise e, h'))
        <-> (~ is_list h root
             \/ exists l elems,
                  root = VRef l /\ h !! l = Some (OList elems)
                  /\ length elems < key)).
Proof.
  split; intros key; split.
  - intros (e & h' & Hadd).
    apply ComponentKey_add_raises in Hadd as (_ & _ & Hnd). exact Hnd.
  - intros Hnd. eexists _, _. apply ComponentKey_add_not_dict. exact Hnd.
  - intros (e & h' & Hadd).
    destruct (is_list_dec h root) as [(l & elems & -> & Hl) | Hnl];
      [| left; exact Hnl].
    right. exists l, elems. split; [reflexivity |]. split; [exact Hl |].
    apply ComponentIndex_add_raises in Hadd as Hkind.
    destruct Hkind as [[-> | ->] ->].
    + exfalso. destruct (Nat.lt_trichotomy (length elems) key)
        as [Hlt | [Heq | Hgt]].
      * rewrite (ComponentIndex_add_gap h l elems key next value Hl Hlt)
          in Hadd. discriminate.
      * subst key. destruct (isinstance_NotSet value) eqn:Hv.
        -- apply isinstance_NotSet_true in Hv. subst value.
           rewrite (ComponentIndex_add_unset_end h l elems next Hl) in Hadd.
           discriminate.
        -- rewrite (ComponentIndex_add_value_end h l elems next value Hl Hv)
             in Hadd. discriminate.
      * destruct (isinstance_NotSet value) eqn:Hv.
        -- apply isinstance_NotSet_true in Hv. subst value.
           destruct (lookup_lt_is_Some_2 elems key Hgt) as [x Hx].
           rewrite (ComponentIndex_add_unset_inside h l elems key next x Hl Hx)
             in Hadd. discriminate.
        -- rewrite (ComponentIndex_add_value_inside h l elems key next value
                      Hl Hgt Hv) in Hadd. discriminate.
    + destruct (Nat.lt_trichotomy (length elems) key) as [Hlt | [Heq | Hgt]];
        [exact Hlt | exfalso | exfalso].
      * subst key. destruct (isinstance_NotSet value) eqn:Hv.
        -- apply isinstance_NotSet_true in Hv. subst value.
           rewrite (ComponentIndex_add_unset_end h l elems next Hl) in Hadd.
           discriminate.
        -- rewrite (ComponentIndex_add_value_end h l elems next value Hl Hv)
             in Hadd. discriminate.
      * destruct (isinstance_NotSet value) eqn:Hv.
        -- apply isinstance_NotSet_true in Hv. subst value.
           destruct (lookup_lt_is_Some_2 elems key Hgt) as [x Hx].
           rewrite (ComponentIndex_add_unset_inside h l elems key next x Hl Hx)
             in Hadd. discriminate.
        -- rewrite (ComponentIndex_add_value_inside h l elems key next value
                      Hl Hgt Hv) in Hadd. discriminate.
  - intros [Hnl | (l & elems & -> & Hl & Hlt)].
    + eexists _, _. apply ComponentIndex_add_not_list. exact Hnl.
    + eexists _, _. eapply ComponentIndex_add_gap; eassumption.
Qed.



(** X4.  When [add] returns, what it returns is the root it was given; the
    root and the value passed [json.dumps], the path is a word of the
    pattern, and the root is a dictionary, before the call and after it. *)
Theorem add_returns_root root json_path value h (r : val) h' :
  JsonBuilder.add root json_path value h = (Ok r, h') ->
  r = root
  /\ serializable h root
  /\ serializable h value
  /\ re.fullmatch JsonBuilder.json_path_regex json_path = true
  /\ is_dict h root
  /\ is_dict h' root.
Proof.
  intros Hadd. pose proof (grows_only_add root json_path value h _ _ Hadd) as Hg.
  revert Hadd.
  unfold JsonBuilder.add, bind, JsonBuilder.check_path, raise, ret.
  destruct (JsonBuilder.check_json root h) as [[[]|e1] h1] eqn:Hroot;
    [| discriminate].
  apply check_json_Ok in Hroot as [Hroot ->].
  destruct (re.fullmatch JsonBuilder.json_path_regex json_path) eqn:Hpath;
    [| discriminate].
  cbn [negb]. cbv beta iota.
  destruct (JsonBuilder.check_json value h) as [[[]|e2] h2] eqn:Hvalue;
    [| discriminate].
  apply check_json_Ok in Hvalue as [Hvalue ->].
  destruct (JsonBuilder.walk _ _ _ _ _ h) as [[[]|e3] h3] eqn:Hwalk;
    [| discriminate].
  intros [= <- <-].
  assert (Hd : is_dict h root).
  { destruct (is_dict_dec h root) as [Hd | Hnd]; [exact Hd | exfalso].
    destruct (get_path_components_cons json_path) as (key & rest & Hcs).
    rewrite Hcs in Hwalk.
    erewrite walk_TypeError in Hwalk; [discriminate |].
    simpl. apply ComponentKey_add_not_dict. exact Hnd. }
  repeat split; try assumption.
  destruct Hd as (l & items & -> & Hl).
  destruct (Hg l _ Hl) as ([items'|elems'] & Hl' & Hgrow); [| destruct Hgrow].
  exists l, items'. auto.
Qed.

Lemma add_returns_root_witness :
  VRef 0 = VRef 0
  /\ serializable [ODict []] (VRef 0)
  /\ serializable [ODict []] (VStr "v")
  /\ re.fullmatch JsonBuilder.json_path_regex "$.k" = true
  /\ is_dict [ODict []] (VRef 0)
  /\ is_dict [ODict [("k", VStr "v")]] (VRef 0).
Proof.
  exact (add_returns_root (VRef 0) "$.k" (VStr "v") [ODict []] _ _ eq_refl).
Defined.

(** X5.  Whether [add] returns or raises, every object of the store is
    still there afterwards, a dictionary is still a dictionary with at
    least the keys it had, and a list is still a list and no shorter:
    [add] never removes a key, never shortens a list, never turns one kind
    of container into another. *)
Theorem add_store_grows root json_path value h (r : result val) h' :
  JsonBuilder.add root json_path value h = (r, h') ->
  store_grows h h' /\ length h <= length h'.
Proof.
  intros Hadd. pose proof (grows_only_add root json_path value h _ _ Hadd) as Hg.
  split; [exact Hg |].
  destruct (Nat.le_gt_cases (length h) (length h')) as [Hle | Hgt];
    [exact Hle | exfalso].
  destruct (lookup_lt_is_Some_2 h (length h') Hgt) as [o Ho].
  destruct (Hg _ _ Ho) as (o' & Ho' & _).
  apply lookup_lt_Some in Ho'. lia.
Qed.

Lemma add_store_grows_witness :
  store_grows [ODict [("a", VRef 1)]; OList [VRef 2]; ODict []]
    [ODict [("a", VRef 1)]; OList [VRef 2; VRef 3];
     ODict [("c", VInt 2)]; ODict []]
  /\ 3 <= 4.
Proof.
  exact (add_store_grows (VRef 0) "$.a[0].c" (VInt 2)
           [ODict [("a", VRef 1)]; OList [VRef 2]; ODict []] _ _ eq_refl).
Defined.

Lemma dict_set_length (k : string) (v : val) (items : list (string * val)) :
  length (dict_set k v items) =
    match dict_get k items with
    | Some _ => length items
    | None => S (length items)
    end.
Proof.
  induction items as [|[k0 v0] items IH]; simpl; [reflexivity |].
  destruct (String.eqb k0 k); simpl; [reflexivity |].
  rewrite IH. destruct (dict_get k items); reflexivity.
Qed.

Lemma dict_set_idem (k : string) (v : val) (items : list (string * val)) :
  dict_set k v (dict_set k v items) = dict_set k v items.
Proof.
  induction items as [|[k0 v0] items IH]; simpl.
  - rewrite String.eqb_refl. reflexivity.
  - destruct (String.eqb k0 k) eqn:Hk; simpl.
    + rewrite String.eqb_refl. reflexivity.
    + rewrite Hk, IH. reflexivity.
Qed.

(** X6.  The last key of a path, on a dictionary: the value is stored under
    the key and the dictionary itself is returned.  Reading the key then
    gives the value, every other key reads as before, a key that was there
    is overwritten where it stood and a new one adds one item, and no other
    object of the store changes. *)
Theorem key_add_value_lookup h l (items : list (string * val)) (key : string)
    next value :
  h !! l = Some (ODict items) ->
  key <> "$" ->
  isinstance_NotSet value = false ->
  exists items',
    ComponentKey.add key (VRef l) next value h
      = (Ok (VRef l), <[l := ODict items']> h)
    /\ dict_get key items' = Some value
    /\ (forall k, k <> key -> dict_get k items' = dict_get k items)
    /\ length items' =
         match dict_get key items with
         | Some _ => length items
         | None => S (length items)
         end.
Proof.
  intros Hl Hkey Hv. apply String.eqb_neq in Hkey.
  exists (dict_set key value items). repeat split.
  - apply ComponentKey_add_value; assumption.
  - apply dict_get_set_eq.
  - intros k Hk. apply dict_get_set_ne. exact Hk.
  - apply dict_set_length.
Qed.

Lemma key_add_value_lookup_witness :
  exists items',
    ComponentKey.add "b" (VRef 0) None (VInt 2)
      [ODict [("a", VInt 1); ("b", VInt 0)]]
      = (Ok (VRef 0), <[0 := ODict items']> [ODict [("a", VInt 1); ("b", VInt 0)]])
    /\ dict_get "b" items' = Some (VInt 2)
    /\ (forall k, k <> "b" ->
        dict_get k items' = dict_get k [("a", VInt 1); ("b", VInt 0)])
    /\ length items' = 2.
Proof.
  apply (key_add_value_lookup [ODict [("a", VInt 1); ("b", VInt 0)]] 0
           [("a", VInt 1); ("b", VInt 0)] "b" None (VInt 2));
    [reflexivity | discriminate | reflexivity].
Defined.

(** X7.  A key that is not the last of its path, on a dictionary.  If the
    key is there, what it holds is returned as it is, whatever it is, and
    the store does not change.  If it is not, a new container is made, an
    empty list when the next component is an index and an empty dictionary
    otherwise; it is stored under the key and returned, every other key
    reads as before and no other object of the store changes. *)
Theorem key_add_materializes h l (items : list (string * val)) (key : string)
    next :
  h !! l = Some (ODict items) ->
  key <> "$" ->
  (forall v, dict_get key items = Some v ->
     ComponentKey.add key (VRef l) next VNotSet h = (Ok v, h))
  /\ (dict_get key items = None ->
      exists h' items',
        ComponentKey.add key (VRef l) next VNotSet h
          = (Ok (VRef (length h)), h')
        /\ h !! length h = None
        /\ h' !! length h =
             Some (if isinstance_ComponentIndex next then OList [] else ODict [])
        /\ h' !! l = Some (ODict items')
        /\ dict_get key items' = Some (VRef (length h))
        /\ (forall k, k <> key -> dict_get k items' = dict_get k items)
        /\ (forall l0, l0 <> l -> l0 < length h -> h' !! l0 = h !! l0)).
Proof.
  intros Hl Hkey. apply String.eqb_neq in Hkey.
  assert (Hlt : l < length h) by (eapply lookup_lt_Some; exact Hl).
  split.
  - intros v Hv. eapply ComponentKey_add_present; eassumption.
  - intros Hnone.
    exists (<[l := ODict (dict_set key (VRef (length h)) items)]> h
              ++ [container_for_key next]),
      (dict_set key (VRef (length h)) items).
    repeat split.
    + apply ComponentKey_add_absent; assumption.
    + apply lookup_ge_None. lia.
    + rewrite lookup_app_r by (rewrite length_insert; lia).
      rewrite length_insert, Nat.sub_diag. reflexivity.
    + apply lookup_insert_app. exact Hlt.
    + apply dict_get_set_eq.
    + intros k Hk. apply dict_get_set_ne. exact Hk.
    + intros l0 Hne Hl0.
      rewrite lookup_app_l by (rewrite length_insert; exact Hl0).
      apply list_lookup_insert_ne. congruence.
Qed.

Lemma key_add_materializes_witness :
  ComponentKey.add "a" (VRef 0) (Some (ComponentKey "b")) VNotSet
    [ODict [("a", VInt 7)]] = (Ok (VInt 7), [ODict [("a", VInt 7)]])
  /\ exists h' items',
       ComponentKey.add "a" (VRef 0) (Some (ComponentIndex 0)) VNotSet
         [ODict []] = (Ok (VRef 1), h')
       /\ h' !! 1 = Some (OList [])
       /\ h' !! 0 = Some (ODict items')
       /\ dict_get "a" items' = Some (VRef 1).
Proof.
  split.
  - apply (proj1 (key_add_materializes [ODict [("a", VInt 7)]] 0
                    [("a", VInt 7)] "a" (Some (ComponentKey "b")) eq_refl
                    ltac:(discriminate))).
    reflexivity.
  - destruct (proj2 (key_add_materializes [ODict []] 0 [] "a"
                       (Some (ComponentIndex 0)) eq_refl ltac:(discriminate))
                eq_refl)
      as (h' & items' & Hadd & _ & Hnew & Hl & Hget & _).
    exists h', items'. auto.
Defined.

(** X8.  The last index of a path, on a list no shorter than the index: the
    value is written at the index and it is the value, not the list, that
    is returned.  At the end of the list the value is appended; inside, it
    takes the place of the element that was there.  Every other element
    stays, and no other object of the store changes. *)
Theorem index_add_value_lookup h l (elems : list val) (key : nat) next value :
  h !! l = Some (OList elems) ->
  key <= length elems ->
  isinstance_NotSet value = false ->
  exists elems',
    ComponentIndex.add key (VRef l) next value h
      = (Ok value, <[l := OList elems']> h)
    /\ elems' !! key = Some value
    /\ (forall i, i <> key -> i < length elems -> elems' !! i = elems !! i)
    /\ length elems' = Nat.max (length elems) (S key).
Proof.
  intros Hl Hkey Hv.
  destruct (decide (key = length elems)) as [-> | Hne].
  - exists (elems ++ [value]). repeat split.
    + apply ComponentIndex_add_value_end; assumption.
    + rewrite lookup_app_r, Nat.sub_diag by lia. reflexivity.
    + intros i _ Hi. apply lookup_app_l. exact Hi.
    + rewrite length_app. simpl. lia.
  - assert (Hlt : key < length elems) by lia.
    exists (<[key := value]> elems). repeat split.
    + apply ComponentIndex_add_value_inside; assumption.
    + apply list_lookup_insert_eq. exact Hlt.
    + intros i Hi _. apply list_lookup_insert_ne. congruence.
    + rewrite length_insert. lia.
Qed.

Lemma index_add_value_lookup_witness :
  exists elems',
    ComponentIndex.add 1 (VRef 0) None (VInt 9) [OList [VInt 1; VInt 2]]
      = (Ok (VInt 9), <[0 := OList elems']> [OList [VInt 1; VInt 2]])
    /\ elems' !! 1 = Some (VInt 9)
    /\ (forall i, i <> 1 -> i < 2 -> elems' !! i = [VInt 1; VInt 2] !! i)
    /\ length elems' = 2.
Proof.
  apply (index_add_value_lookup [OList [VInt 1; VInt 2]] 0 [VInt 1; VInt 2] 1
           None (VInt 9)); [reflexivity | simpl; lia | reflexivity].
Defined.

Lemma index_group_first (g : string) :
  re.matches spec_index_group g ->
  exists c t, g = String "[" (String c t) /\ re.in_charset re.digit c = true.
Proof.
  unfold spec_index_group, re.Plus. intros Hm.
  inversion Hm as [| |? ? s1 s2 Hm1 Hm2| | | |]; subst.
  inversion Hm1 as [|? c1 Hc1| | | | |]; subst.
  inversion Hm2 as [| |? ? s3 s4 Hm3 Hm4| | | |]; subst.
  inversion Hm3 as [| |? ? s5 s6 Hm5 Hm6| | | |]; subst.
  inversion Hm5 as [|? c5 Hc5| | | | |]; subst.
  simpl in Hc1. apply Ascii.eqb_eq in Hc1. subst c1.
  rewrite !append_cons, !append_nil_l. eauto.
Qed.

Lemma index_groups_first (s : string) :
  re.matches (re.Star spec_index_group) s ->
  s <> "" ->
  exists c t, s = String "[" (String c t) /\ re.in_charset re.digit c = true.
Proof.
  intros Hm Hne. remember (re.Star spec_index_group) as r eqn:Hr.
  destruct Hm; try discriminate; injection Hr as ->; [congruence |].
  apply index_group_first in Hm1 as (c & t & -> & Hc).
  rewrite !append_cons. eauto.
Qed.

Lemma findall_digits_from_run_cons (s run : string) :
  run <> "" -> re.findall_digits_from s run <> [].
Proof.
  revert run. induction s as [|c s IH]; intros run Hrun.
  - destruct run; [congruence | discriminate].
  - cbn [re.findall_digits_from].
    destruct (re.in_charset re.digit c).
    + apply IH. destruct run; discriminate.
    + destruct run; [congruence | discriminate].
Qed.

(** The components of a path of the grammar that opens with an index group
    begin with the key [$] and an index. *)
Lemma get_path_components_root_index (json_path tail : string) :
  re.matches spec_grammar json_path ->
  json_path = String "$" (String "[" tail) ->
  exists (key : nat) rest,
    JsonBuilder.get_path_components json_path =
      ComponentKey "$" :: ComponentIndex key :: rest.
Proof.
  unfold spec_grammar. intros Hm Hpath.
  inversion Hm as [| |? ? s1 s2 Hm1 Hm2| | | |]; subst.
  inversion Hm1 as [|? c0 Hc0| | | | |]; subst.
  rewrite append_cons, append_nil_l in H1. injection H1 as _ Hs2.
  apply grammar_body_shape in Hm2 as (groups & rest & Hs & Hg & Hrest).
  assert (Hne : groups <> "").
  { intros ->. rewrite append_nil_l in Hs. subst s2.
    destruct Hrest as [-> | (r & ->)]; discriminate. }
  destruct (index_groups_first groups Hg Hne) as (c & t & Hct & Hc).
  destruct (index_groups_shape groups Hg) as [-> | (mid & Hmid & Hchars)];
    [congruence |].
  assert (Hnodot : occurs "." groups = false).
  { rewrite Hmid. simpl. rewrite occurs_app.
    rewrite (all_in_occurs index_chars "." mid eq_refl Hchars). reflexivity. }
  subst s2. rewrite append_cons, append_nil_l.
  unfold JsonBuilder.get_path_components, split.
  change (split_from "." (String c0 (groups +:+ rest)) "")
    with (if Ascii.eqb c0 "."
          then "" :: split_from "." (groups +:+ rest) ""
          else split_from "." (groups +:+ rest) ("" +:+ String c0 "")).
  simpl in Hc0. apply Ascii.eqb_eq in Hc0. subst c0. cbn [Ascii.eqb Bool.eqb].
  destruct (split_from_head "." groups rest ("" +:+ "$") Hnodot Hrest)
    as (items & ->).
  cbn [flat_map]. unfold JsonBuilder.item_components at 1.
  replace (re.fullmatch JsonBuilder.item_regex (("" +:+ "$") +:+ groups))
    with true.
  - assert (Hfind : re.findall_digits (("" +:+ "$") +:+ groups)
                    = re.findall_digits_from t (String c "")).
    { rewrite Hct. unfold re.findall_digits.
      rewrite append_nil_l, append_cons, append_nil_l.
      cbn [re.findall_digits_from].
      replace (re.in_charset re.digit "$") with false by reflexivity.
      replace (re.in_charset re.digit "[") with false by reflexivity.
      rewrite Hc. reflexivity. }
    rewrite Hfind.
    destruct (re.findall_digits_from t (String c "")) as [|d ds] eqn:Hds.
    + exfalso. revert Hds. apply findall_digits_from_run_cons. discriminate.
    + rewrite Hct. simpl. eauto.
  - symmetry. apply fullmatch_matches. unfold JsonBuilder.item_regex.
    rewrite append_nil_l.
    constructor; [apply matches_Plus_one; constructor; reflexivity |].
    rewrite Hmid.
    change (String "[" (mid +:+ "]")) with (String "[" "" +:+ (mid +:+ "]")).
    constructor; [constructor; reflexivity |].
    constructor; [| constructor; reflexivity].
    apply all_in_Star. revert Hchars. apply all_in_incl, index_chars_AnyChar.
Qed.

(** X9.  A path of the grammar that opens with an index group, such as
    [$[0]] or [$[1].a], never succeeds: for every serializable root and
    value [add] raises a [TypeError] with its context and the store is as
    it was.  The first component [$] wants a dictionary and the index that
    follows wants a list, of the same object. *)
Theorem add_root_index_fails h root json_path (tail : string) value :
  re.matches spec_grammar json_path ->
  json_path = String "$" (String "[" tail) ->
  serializable h root ->
  serializable h value ->
  exists m,
    JsonBuilder.add root json_path value h
      = (Raise (TypeError (MsgContext m root json_path)), h).
Proof.
  intros Hm Hpath Hroot Hvalue.
  destruct (get_path_components_root_index json_path tail Hm Hpath)
    as (key & rest & Hcs).
  rewrite add_checked;
    [| exact Hroot | apply fullmatch_json_path_regex; exact Hm | exact Hvalue].
  rewrite Hcs.
  destruct (is_dict_dec h root) as [(l & items & -> & Hl) | Hnd].
  - exists (MsgNotList key).
    erewrite walk_ok; [| simpl; eapply ComponentKey_add_dollar; exact Hl].
    erewrite walk_TypeError; [reflexivity |].
    simpl. apply ComponentIndex_add_not_list.
    intros (l0 & elems & [= <-] & Hl0). congruence.
  - exists (MsgNotDict "$").
    erewrite walk_TypeError; [reflexivity |].
    simpl. apply ComponentKey_add_not_dict. exact Hnd.
Qed.

Lemma add_root_index_fails_witness :
  exists m,
    JsonBuilder.add (VRef 0) "$[0].a" (VInt 1) [ODict []]
      = (Raise (TypeError (MsgContext m (VRef 0) "$[0].a")), [ODict []]).
Proof.
  apply (add_root_index_fails [ODict []] (VRef 0) "$[0].a" "0].a" (VInt 1)).
  - apply fullmatch_json_path_regex. reflexivity.
  - reflexivity.
  - reflexivity.
  - reflexivity.
Defined.

(** X10.  For a name of one or more letters from a to x, in either case,
    followed by one or more groups of digits between brackets, the path
    [$.name[d1]...[dn]] passes [__check_path] and its components are the
    key [$], the key [name] and one index per group, in order, each the
    number that its digits write. *)
Theorem get_path_components_name_indices (name : string) (ds : list string) :
  name <> "" ->
  all_in letters_a_x name = true ->
  ds <> [] ->
  Forall digits ds ->
  re.fullmatch JsonBuilder.json_path_regex (indexed_path name ds) = true
  /\ JsonBuilder.get_path_components (indexed_path name ds) =
       ComponentKey "$" :: ComponentKey name
         :: map (fun d => ComponentIndex (int d)) ds.
Proof.
  intros Hne Hname Hds Hdigits. split.
  - apply fullmatch_indexed_path; assumption.
  - apply get_path_components_indexed; assumption.
Qed.

Lemma get_path_components_name_indices_witness :
  indexed_path "rows" ["12"; "0"] = "$.rows[12][0]"
  /\ re.fullmatch JsonBuilder.json_path_regex "$.rows[12][0]" = true
  /\ JsonBuilder.get_path_components "$.rows[12][0]" =
       [ComponentKey "$"; ComponentKey "rows"; ComponentIndex 12;
        ComponentIndex 0].
Proof.
  split; [reflexivity |].
  apply (get_path_components_name_indices "rows" ["12"; "0"]).
  - discriminate.
  - reflexivity.
  - discriminate.
  - repeat constructor; discriminate.
Defined.

(** X11.  The paths that [__check_path] accepts are exactly a dollar
    followed by any number of groups, each a key group (a dot and one or
    more letters or digits) or an index group (one or more digits between
    brackets), in any order: the nesting of the pattern adds no constraint
    on the order of the groups. *)
Theorem check_path_any_groups (json_path : string) h :
  JsonBuilder.check_path json_path h = (Ok tt, h)
  <-> re.matches any_groups json_path.
Proof.
  unfold JsonBuilder.check_path, any_groups.
  assert (Hsame : re.fullmatch JsonBuilder.json_path_regex json_path = true
                  <-> re.matches
                        (re.Cat (re.Sym (re.Chr "$"))
                           (re.Star (re.Alt JsonBuilder.key_group
                                       JsonBuilder.index_group)))
                        json_path).
  { rewrite fullmatch_matches. unfold JsonBuilder.json_path_regex.
    apply same_words_Cat; [apply same_words_refl | apply same_words_groups]. }
  destruct (re.fullmatch JsonBuilder.json_path_regex json_path); simpl.
  - split; [intros _; apply Hsame; reflexivity | reflexivity].
  - split; [discriminate |]. intros Hm. apply Hsame in Hm. discriminate.
Qed.


(** X12.  A path of one key, [$.k], on any dictionary: [add] stores the
    value under [k] in the root, overwriting what was there, and returns
    the root; every other key of the root reads as before.  Doing the same
    call again changes nothing. *)
Theorem add_single_key h l (items : list (string * val)) (k : string) value :
  h !! l = Some (ODict items) ->
  valid_key k ->
  serializable h (VRef l) ->
  serializable h value ->
  let h' := <[l := ODict (dict_set k value items)]> h in
  JsonBuilder.add (VRef l) (key_path [k]) value h = (Ok (VRef l), h')
  /\ get_path h' (VRef l) [k] = Some value
  /\ (forall k', k' <> k ->
      get_path h' (VRef l) [k'] = get_path h (VRef l) [k'])
  /\ (serializable h' (VRef l) ->
      serializable h' value ->
      JsonBuilder.add (VRef l) (key_path [k]) value h' = (Ok (VRef l), h')).
Proof.
  intros Hl Hk Hroot Hvalue h'.
  assert (Hlt : l < length h) by (eapply lookup_lt_Some; exact Hl).
  assert (Hl' : h' !! l = Some (ODict (dict_set k value items)))
    by (apply list_lookup_insert_eq; exact Hlt).
  assert (Hkeys : Forall valid_key [k]) by (constructor; [exact Hk | constructor]).
  assert (Hstep : forall h0 items0,
            h0 !! l = Some (ODict items0) ->
            serializable h0 (VRef l) -> serializable h0 value ->
            JsonBuilder.add (VRef l) (key_path [k]) value h0
              = (Ok (VRef l), <[l := ODict (dict_set k value items0)]> h0)).
  { intros h0 items0 Hl0 Hroot0 Hvalue0.
    rewrite add_checked;
      [| exact Hroot0 | apply fullmatch_key_path; exact Hkeys | exact Hvalue0].
    rewrite (get_path_components_key_path [k] Hkeys). simpl map.
    erewrite walk_ok; [| simpl; eapply ComponentKey_add_dollar; exact Hl0].
    erewrite walk_ok; [reflexivity |].
    simpl. apply ComponentKey_add_value;
      [exact Hl0 | apply valid_key_not_dollar; exact Hk
       | eapply serializable_not_NotSet; exact Hvalue0]. }
  split; [| split; [| split]].
  - apply Hstep; assumption.
  - simpl. rewrite Hl', dict_get_set_eq. reflexivity.
  - intros k' Hne. simpl. rewrite Hl', Hl, dict_get_set_ne by exact Hne.
    reflexivity.
  - intros Hroot' Hvalue'.
    rewrite (Hstep h' _ Hl' Hroot' Hvalue'), dict_set_idem.
    unfold h'. rewrite list_insert_insert_eq. reflexivity.
Qed.

Lemma add_single_key_witness :
  JsonBuilder.add (VRef 0) "$.b" (VInt 2)
    [ODict [("a", VInt 1); ("b", VInt 0)]]
    = (Ok (VRef 0), [ODict [("a", VInt 1); ("b", VInt 2)]])
  /\ JsonBuilder.add (VRef 0) "$.b" (VInt 2)
       [ODict [("a", VInt 1); ("b", VInt 2)]]
      = (Ok (VRef 0), [ODict [("a", VInt 1); ("b", VInt 2)]]).
Proof.
  destruct (add_single_key [ODict [("a", VInt 1); ("b", VInt 0)]] 0
              [("a", VInt 1); ("b", VInt 0)] "b" (VInt 2) eq_refl
              ltac:(split; [discriminate | reflexivity]) eq_refl eq_refl)
    as (Hadd & _ & _ & Hagain).
  split; [exact Hadd | apply Hagain; reflexivity].
Defined.







End Extras.
